(** * Budget: the recurring-rule engine, the query engine and the
      import/merge reconciler of [budget1.py]

    A shallow embedding of [DatabaseManager], [SaveLoadManager] and the
    running-balance loop of [BudgetApp.update_chart], followed by the
    properties of the design document that concern them.

    Modelling conventions.
    - The SQLite file is a record [db] holding the two tables in rowid
      order together with their AUTOINCREMENT counters (the rows of
      [sqlite_sequence]); every method of the program that opens a
      connection becomes a function on [db].
    - The TEXT date columns hold ['%Y-%m-%d'] text.  A date text is kept
      as its three numeric fields; [strptime] is the check that the fields
      denote a calendar day and raises [ValueError] otherwise, and the
      order of date texts is the lexicographic order of the fields (the
      byte order of zero-padded ISO text).
    - The REAL amount column is kept abstract: every definition is
      generic in a carrier with Python's [0], [+], unary [-] and [==]
      (class [Number]); integers and binary64 floats are instances.
    - Python exceptions are the [Raise] results of the type [result];
      where a loop has written to the database before an exception
      escapes, the written database is part of the outcome. *)

From Stdlib Require Import ZArith List String Ascii Bool Lia.
From Stdlib Require Import Permutation Sorted.
From Stdlib Require Import Floats.
Import ListNotations.

Local Open Scope string_scope.
Local Open Scope Z_scope.

(** ** Exceptions *)

Inductive exn : Type :=
| ValueError
| OverflowError.

Inductive result (A : Type) : Type :=
| Ok (a : A)
| Raise (e : exn).

Arguments Ok {A} a.
Arguments Raise {A} e.

Definition bind {A B : Type} (m : result A) (k : A -> result B) : result B :=
  match m with
  | Ok a => k a
  | Raise e => Raise e
  end.

Notation "x <- m ;; k" := (bind m (fun x => k))
  (at level 61, m at next level, right associativity).

(** ** Calendar dates, after Python's [datetime] module *)

Record date : Type := mkdate { year : Z; month : Z; day : Z }.

Definition MINYEAR : Z := 1.
Definition MAXYEAR : Z := 9999.
Definition MAXORDINAL : Z := 3652059.

Definition is_leap (y : Z) : bool :=
  (y mod 4 =? 0) && (negb (y mod 100 =? 0) || (y mod 400 =? 0)).

Definition DAYS_IN_MONTH (m : Z) : Z :=
  match m with
  | 1 => 31 | 2 => 28 | 3 => 31 | 4 => 30 | 5 => 31 | 6 => 30
  | 7 => 31 | 8 => 31 | 9 => 30 | 10 => 31 | 11 => 30 | 12 => 31
  | _ => -1
  end.

Definition DAYS_BEFORE_MONTH (m : Z) : Z :=
  match m with
  | 1 => 0 | 2 => 31 | 3 => 59 | 4 => 90 | 5 => 120 | 6 => 151
  | 7 => 181 | 8 => 212 | 9 => 243 | 10 => 273 | 11 => 304 | 12 => 334
  | _ => -1
  end.

Definition days_in_month (y m : Z) : Z :=
  if (m =? 2) && is_leap y then 29 else DAYS_IN_MONTH m.

Definition days_before_year (y : Z) : Z :=
  let y' := y - 1 in y' * 365 + y' / 4 - y' / 100 + y' / 400.

Definition days_before_month (y m : Z) : Z :=
  DAYS_BEFORE_MONTH m + (if (2 <? m) && is_leap y then 1 else 0).

(** The check made by the [date] and [datetime] constructors. *)
Definition valid_date (d : date) : bool :=
  (MINYEAR <=? year d) && (year d <=? MAXYEAR) &&
  (1 <=? month d) && (month d <=? 12) &&
  (1 <=? day d) && (day d <=? days_in_month (year d) (month d)).

Definition toordinal (d : date) : Z :=
  days_before_year (year d) + days_before_month (year d) (month d) + day d.

(** [_ord2ymd]: the proleptic Gregorian ordinal back to year, month, day. *)
Definition fromordinal (n0 : Z) : date :=
  let n := n0 - 1 in
  let n400 := n / 146097 in
  let n := n mod 146097 in
  let n100 := n / 36524 in
  let n := n mod 36524 in
  let n4 := n / 1461 in
  let n := n mod 1461 in
  let n1 := n / 365 in
  let n := n mod 365 in
  let y := n400 * 400 + 1 + n100 * 100 + n4 * 4 + n1 in
  if (n1 =? 4) || (n100 =? 4) then mkdate (y - 1) 12 31
  else
    let leapyear := (n1 =? 3) && (negb (n4 =? 24) || (n100 =? 3)) in
    let m := Z.shiftr (n + 50) 5 in
    let preceding :=
      DAYS_BEFORE_MONTH m + (if (2 <? m) && leapyear then 1 else 0) in
    if n <? preceding then
      let m' := m - 1 in
      let preceding' :=
        preceding
        - (DAYS_IN_MONTH m' + (if (m' =? 2) && leapyear then 1 else 0)) in
      mkdate y m' (n - preceding' + 1)
    else mkdate y m (n - preceding + 1).

(** The month-and-day step of [fromordinal] on day [n] of a year, counted
    from 0, as a test that can be run over a whole year: the month and the
    day found exist, and they are [n] days after 1 January. *)
Definition month_day_ok (leap : bool) (n : Z) : bool :=
  let m := Z.shiftr (n + 50) 5 in
  let preceding := DAYS_BEFORE_MONTH m + (if (2 <? m) && leap then 1 else 0) in
  let '(m', p') :=
    if n <? preceding
    then (m - 1, preceding - (DAYS_IN_MONTH (m - 1) + (if (m - 1 =? 2) && leap then 1 else 0)))
    else (m, preceding) in
  (1 <=? m') && (m' <=? 12) && (1 <=? n - p' + 1)
  && (n - p' + 1 <=? (if (m' =? 2) && leap then 29 else DAYS_IN_MONTH m'))
  && (DAYS_BEFORE_MONTH m' + (if (2 <? m') && leap then 1 else 0) + (n - p' + 1) =? n + 1).

(** [datetime.strptime(text, '%Y-%m-%d')]: the parsed day, or [ValueError]
    when the text does not denote one.  The time of day of the parsed value
    is midnight, so the later [.date()] calls are the identity. *)
Definition strptime (text : date) : result date :=
  if valid_date text then Ok text else Raise ValueError.

(** [d + timedelta(days=n)], for a date or a midnight datetime. *)
Definition add_days (d : date) (n : Z) : result date :=
  let o := toordinal d + n in
  if (0 <? o) && (o <=? MAXORDINAL) then Ok (fromordinal o)
  else Raise OverflowError.

(** [d.replace(year=y, month=m)]: the constructor is run again on the new
    fields and rejects a day that the month does not have. *)
Definition replace (d : date) (y m : Z) : result date :=
  let d' := mkdate y m (day d) in
  if valid_date d' then Ok d' else Raise ValueError.

Definition date_compare (a b : date) : comparison :=
  match year a ?= year b with
  | Eq => match month a ?= month b with
          | Eq => day a ?= day b
          | c => c
          end
  | c => c
  end.

Definition date_leb (a b : date) : bool :=
  match date_compare a b with Gt => false | _ => true end.

Definition date_eqb (a b : date) : bool :=
  match date_compare a b with Eq => true | _ => false end.

(** ** [DatabaseManager._calculate_next_due_date] *)

Definition _calculate_next_due_date (last_date : date) (frequency : string)
  : result date :=
  if String.eqb frequency "daily" then add_days last_date 1
  else if String.eqb frequency "weekly" then add_days last_date 7
  else if String.eqb frequency "bi-weekly" then add_days last_date 14
  else if String.eqb frequency "monthly" then
    if month last_date =? 12
    then replace last_date (year last_date + 1) 1
    else replace last_date (year last_date) (month last_date + 1)
  else if String.eqb frequency "yearly" then
    replace last_date (year last_date + 1) (month last_date)
  else add_days last_date 1.

(** ** Amounts *)

(** What the program asks of an amount: the literal [0] that starts a
    running balance, [+], unary [-] and [==]. *)
Class Number (A : Type) : Type := {
  num_zero : A;
  num_add : A -> A -> A;
  num_neg : A -> A;
  num_eqb : A -> A -> bool
}.

#[export] Instance Z_Number : Number Z := {|
  num_zero := 0;
  num_add := Z.add;
  num_neg := Z.opp;
  num_eqb := Z.eqb
|}.

(** Python floats (and SQLite REAL values) are IEEE 754 binary64. *)
#[export] Instance float_Number : Number float := {|
  num_zero := 0%float;
  num_add := PrimFloat.add;
  num_neg := PrimFloat.opp;
  num_eqb := PrimFloat.eqb
|}.

(** ** Sorting *)

(** A stable insertion sort: [x] is put in front of the first element it is
    not after.  With [leb] a total preorder the output is the one stable
    sorted arrangement of the input, which is what Python's [list.sort] and
    an SQL [ORDER BY] on a key with no ties return. *)
Section Sort.
Context {T : Type} (leb : T -> T -> bool).

Fixpoint insert (x : T) (l : list T) : list T :=
  match l with
  | [] => [x]
  | y :: l' => if leb x y then x :: y :: l' else y :: insert x l'
  end.

Fixpoint sort (l : list T) : list T :=
  match l with
  | [] => []
  | x :: l' => insert x (sort l')
  end.
End Sort.

(** ** The tables *)

Section Ledger.
Context {A : Type} `{Number A}.

(** A row of [transactions], in column order. *)
Record transaction : Type := mktransaction {
  t_id : Z;
  t_date : date;
  t_description : string;
  t_category : string;
  t_amount : A;
  t_type : string;
  t_person : string;
  t_created_at : string
}.

(** A row of [recurring_transactions], in column order. *)
Record recurring : Type := mkrecurring {
  r_id : Z;
  r_description : string;
  r_category : string;
  r_amount : A;
  r_type : string;
  r_person : string;
  r_frequency : string;
  r_start_date : date;
  r_end_date : option date;
  r_last_processed : option date;
  r_active : Z;
  r_created_at : string
}.

(** The database file.  The [_seq] fields are the AUTOINCREMENT counters:
    the largest rowid each table has ever handed out.  [DELETE] leaves
    them as they are. *)
Record db : Type := mkdb {
  transactions : list transaction;
  transactions_seq : Z;
  recurring_transactions : list recurring;
  recurring_seq : Z
}.

(** The [filters] dictionary of [get_transactions]; an absent key is
    [None]. *)
Record filters : Type := mkfilters {
  f_start_date : option date;
  f_end_date : option date;
  f_category : option string;
  f_person : option string;
  f_type : option string
}.

(** Python truth value of [filters.get(key)] for a text value: [None] and
    the empty text are false. *)
Definition truthy (v : option string) : bool :=
  match v with
  | None => false
  | Some s => negb (String.eqb s "")
  end.

(** ** [DatabaseManager.add_transaction]

    [now] is the value of [CURRENT_TIMESTAMP]; the new id is the next
    value of the AUTOINCREMENT counter, and the result carries it as
    [cursor.lastrowid]. *)
Definition add_transaction (now : string) (date : date)
    (description category : string) (amount : A)
    (trans_type person : string) (d : db) : db * Z :=
  let id := transactions_seq d + 1 in
  let row := mktransaction id date description category amount
               trans_type person now in
  (mkdb (transactions d ++ [row]) id
        (recurring_transactions d) (recurring_seq d), id).

(** ** [DatabaseManager.get_transactions] *)

(** The [conditions] list with its [params] bound, in the order the
    method appends them.  Each key is used when [filters.get(key)] is
    true; a date text is never empty, so for the two date keys that is
    when the key is there. *)
Definition conditions (f : filters) : list (transaction -> bool) :=
  (match f_start_date f with
   | Some p => [fun t => date_leb p (t_date t)]
   | None => []
   end) ++
  (match f_end_date f with
   | Some p => [fun t => date_leb (t_date t) p]
   | None => []
   end) ++
  (if truthy (f_category f) then
     match f_category f with
     | Some p => [fun t => String.eqb (t_category t) p]
     | None => []
     end
   else []) ++
  (if truthy (f_person f) then
     match f_person f with
     | Some p => [fun t => String.eqb (t_person t) p]
     | None => []
     end
   else []) ++
  (if truthy (f_type f) then
     match f_type f with
     | Some p => [fun t => String.eqb (t_type t) p]
     | None => []
     end
   else []).

(** [" WHERE " + " AND ".join(conditions)]; no clause when the list is
    empty. *)
Definition where_clause (f : option filters) (t : transaction) : bool :=
  match f with
  | None => true
  | Some f => forallb (fun c => c t) (conditions f)
  end.

(** [ORDER BY date DESC, id DESC]: [a] is listed no later than [b]. *)
Definition order_by_date_desc_id_desc (a b : transaction) : bool :=
  match date_compare (t_date a) (t_date b) with
  | Gt => true
  | Eq => t_id b <=? t_id a
  | Lt => false
  end.

Definition get_transactions (f : option filters) (d : db)
  : list transaction :=
  sort order_by_date_desc_id_desc
       (filter (where_clause f) (transactions d)).

(** ** [DatabaseManager.add_recurring_transaction] *)
Definition add_recurring_transaction (now : string)
    (description category : string) (amount : A)
    (trans_type person frequency : string) (start_date : date)
    (end_date : option date) (d : db) : db * Z :=
  let id := recurring_seq d + 1 in
  let row := mkrecurring id description category amount trans_type person
               frequency start_date end_date None 1 now in
  (mkdb (transactions d) (transactions_seq d)
        (recurring_transactions d ++ [row]) id, id).

(** ** [DatabaseManager.get_recurring_transactions]:
    [WHERE active = 1 ORDER BY id] *)
Definition get_recurring_transactions (d : db) : list recurring :=
  sort (fun a b => r_id a <=? r_id b)
       (filter (fun r => r_active r =? 1) (recurring_transactions d)).

(** The row with [last_processed] set. *)
Definition set_last_processed (next_due : date) (r : recurring)
  : recurring :=
  mkrecurring (r_id r) (r_description r) (r_category r) (r_amount r)
    (r_type r) (r_person r) (r_frequency r) (r_start_date r)
    (r_end_date r) (Some next_due) (r_active r) (r_created_at r).

(** [UPDATE recurring_transactions SET last_processed = ? WHERE id = ?] *)
Definition update_last_processed (next_due : date) (id : Z) (d : db) : db :=
  mkdb (transactions d) (transactions_seq d)
       (map (fun r =>
               if r_id r =? id then set_last_processed next_due r else r)
            (recurring_transactions d))
       (recurring_seq d).

(** ** [DatabaseManager.process_recurring_transactions] *)

(** "Calculate next due date": the three assignments that open the loop
    body. *)
Definition next_due_date (rec : recurring) : result date :=
  start_dt <- strptime (r_start_date rec) ;;
  last_processed_dt <-
    match r_last_processed rec with
    | Some last_processed => strptime last_processed
    | None => add_days start_dt (-1)
    end ;;
  _calculate_next_due_date last_processed_dt (r_frequency rec).

(** "Check if due and within end date": the two nested tests. *)
Definition due_within_end_date (today next_due : date)
    (end_date : option date) : result bool :=
  if date_leb next_due today then
    match end_date with
    | None => Ok true
    | Some end_date =>
        end_dt <- strptime end_date ;;
        Ok (date_leb today end_dt)
    end
  else Ok false.

(** The [for rec in recurring] loop.  [today] is [datetime.now().date()]
    and [now] the [CURRENT_TIMESTAMP] of the inserts.  An exception
    leaves the loop with the database as written so far. *)
Fixpoint process_loop (today : date) (now : string)
    (recurring : list recurring) (processed_count : Z) (d : db)
  : db * result Z :=
  match recurring with
  | [] => (d, Ok processed_count)
  | rec :: rest =>
      match next_due_date rec with
      | Raise e => (d, Raise e)
      | Ok next_due =>
          match due_within_end_date today next_due (r_end_date rec) with
          | Raise e => (d, Raise e)
          | Ok true =>
              let (d1, _) :=
                add_transaction now next_due
                  (r_description rec ++ " (Auto)") (r_category rec)
                  (r_amount rec) (r_type rec) (r_person rec) d in
              let d2 := update_last_processed next_due (r_id rec) d1 in
              process_loop today now rest (processed_count + 1) d2
          | Ok false => process_loop today now rest processed_count d
          end
      end
  end.

Definition process_recurring_transactions (today : date) (now : string)
    (d : db) : db * result Z :=
  process_loop today now (get_recurring_transactions d) 0 d.

(** ** [SaveLoadManager] *)

(** The JSON document.  Rows are written as arrays in column order and
    read back as lists with the same values, so the document is kept as
    the rows themselves. *)
Record snapshot : Type := mksnapshot {
  snap_transactions : list transaction;
  snap_recurring_transactions : list recurring;
  snap_export_date : string;
  snap_version : string
}.

(** [export_data]: the document written to [filepath]; [isonow] is
    [datetime.now().isoformat()]. *)
Definition export_data (isonow : string) (d : db) : snapshot :=
  mksnapshot (get_transactions None d) (get_recurring_transactions d)
             isonow "1.0".

(** The clearing of both tables when [merge] is false. *)
Definition clear_existing_data (d : db) : db :=
  mkdb [] (transactions_seq d) [] (recurring_seq d).

(** The test of the generator under [any] in the transaction loop. *)
Definition same_transaction (trans t : transaction) : bool :=
  String.eqb (t_description t) (t_description trans)
  && num_eqb (t_amount t) (t_amount trans)
  && date_eqb (t_date t) (t_date trans).

(** Body of [for trans in data.get('transactions', [])]. *)
Definition import_transaction (now : string) (merge : bool)
    (trans : transaction) (d : db) : db :=
  if merge
     && existsb (same_transaction trans)
          (get_transactions
             (Some (mkfilters (Some (t_date trans)) (Some (t_date trans))
                              None None None)) d)
  then d
  else fst (add_transaction now (t_date trans) (t_description trans)
              (t_category trans) (t_amount trans) (t_type trans)
              (t_person trans) d).

(** The test of the generator under [any] in the recurring loop. *)
Definition same_recurring (rec r : recurring) : bool :=
  String.eqb (r_description r) (r_description rec)
  && String.eqb (r_type r) (r_type rec)
  && String.eqb (r_frequency r) (r_frequency rec).

(** Body of [for rec in data.get('recurring_transactions', [])]. *)
Definition import_recurring (now : string) (merge : bool)
    (rec : recurring) (d : db) : db :=
  if merge && existsb (same_recurring rec) (get_recurring_transactions d)
  then d
  else fst (add_recurring_transaction now (r_description rec)
              (r_category rec) (r_amount rec) (r_type rec) (r_person rec)
              (r_frequency rec) (r_start_date rec) (r_end_date rec) d).

(** [import_data] on a document that was read and decoded.  On rows of
    the right shape nothing in the two loops raises, so the method
    returns [True]. *)
Definition import_data (now : string) (data : snapshot) (merge : bool)
    (d : db) : db * bool :=
  let d0 := if merge then d else clear_existing_data d in
  let d1 := fold_left (fun d trans => import_transaction now merge trans d)
              (snap_transactions data) d0 in
  let d2 := fold_left (fun d rec => import_recurring now merge rec d)
              (snap_recurring_transactions data) d1 in
  (d2, true).

(** ** The running balance of [BudgetApp.update_chart] *)

(** The signed amount of a row. *)
Definition signed_amount (trans : transaction) : A :=
  if String.eqb (t_type trans) "Income" then t_amount trans
  else num_neg (t_amount trans).

(** The [for trans in transactions] loop, with the lists [dates] and
    [balances] it appends to. *)
Fixpoint balance_loop (transactions : list transaction)
    (running_balance : A) (dates : list date) (balances : list A)
  : result (list date * list A) :=
  match transactions with
  | [] => Ok (dates, balances)
  | trans :: rest =>
      let amount := signed_amount trans in
      let running_balance := num_add running_balance amount in
      date <- strptime (t_date trans) ;;
      balance_loop rest running_balance (dates ++ [date])
        (balances ++ [running_balance])
  end.

(** The points that are plotted: [transactions.sort(key=lambda x: x[1])]
    and the loop, paired up. *)
Definition running_balance (transactions : list transaction)
  : result (list (date * A)) :=
  let transactions :=
    sort (fun x y => date_leb (t_date x) (t_date y)) transactions in
  series <- balance_loop transactions num_zero [] [] ;;
  Ok (combine (fst series) (snd series)).

(** ** Notions used to state the properties *)

(** What the loop body decides for one rule: the date to materialize, no
    date when the rule is not due, or the exception it raises. *)
Definition rule_outcome (today : date) (rec : recurring)
  : result (option date) :=
  next_due <- next_due_date rec ;;
  due <- due_within_end_date today next_due (r_end_date rec) ;;
  Ok (if due then Some next_due else None).

(** Whether the loop body materializes the rule. *)
Definition is_due (today : date) (rec : recurring) : bool :=
  match rule_outcome today rec with
  | Ok (Some _) => true
  | _ => false
  end.

(** A rule after one call that evaluated it. *)
Definition advance_rule (today : date) (r : recurring) : recurring :=
  match rule_outcome today r with
  | Ok (Some next_due) => set_last_processed next_due r
  | _ => r
  end.

(** The row written for a rule that is due on [next_due]. *)
Definition auto_transaction (id : Z) (now : string) (next_due : date)
    (rec : recurring) : transaction :=
  mktransaction id next_due (r_description rec ++ " (Auto)")
    (r_category rec) (r_amount rec) (r_type rec) (r_person rec) now.

(** The columns of a transaction that the caller supplies. *)
Definition transaction_fields (t : transaction)
  : date * string * string * A * string * string :=
  (t_date t, t_description t, t_category t, t_amount t, t_type t,
   t_person t).

(** The columns of a rule that the caller supplies. *)
Definition recurring_fields (r : recurring)
  : string * string * A * string * string * string * date * option date :=
  (r_description r, r_category r, r_amount r, r_type r, r_person r,
   r_frequency r, r_start_date r, r_end_date r).

(** A stored transaction with the date, the description and the amount
    of an incoming one. *)
Definition duplicate_transaction (trans : transaction) (d : db) : Prop :=
  exists t, In t (transactions d) /\
            t_date t = t_date trans /\
            t_description t = t_description trans /\
            num_eqb (t_amount t) (t_amount trans) = true.

(** A listed (active) rule with the description, the type and the
    frequency of an incoming one. *)
Definition duplicate_recurring (rec : recurring) (d : db) : Prop :=
  exists r, In r (recurring_transactions d) /\
            r_active r = 1 /\
            r_description r = r_description rec /\
            r_type r = r_type rec /\
            r_frequency r = r_frequency rec.

(** The filter as a conjunction: each date bound that is given, and each
    text equality that is given with a non-empty text. *)
Definition satisfies (f : filters) (t : transaction) : Prop :=
  (forall p, f_start_date f = Some p -> date_leb p (t_date t) = true) /\
  (forall p, f_end_date f = Some p -> date_leb (t_date t) p = true) /\
  (forall c, f_category f = Some c -> c <> "" -> t_category t = c) /\
  (forall p, f_person f = Some p -> p <> "" -> t_person t = p) /\
  (forall ty, f_type f = Some ty -> ty <> "" -> t_type t = ty).

(** Date descending, then id descending. *)
Definition date_desc_id_desc (a b : transaction) : Prop :=
  date_compare (t_date a) (t_date b) = Gt \/
  (t_date a = t_date b /\ t_id b <= t_id a).

(** The signed sum of a sequence of rows, added up from the left. *)
Definition signed_sum (l : list transaction) : A :=
  fold_left (fun acc t => num_add acc (signed_amount t)) l num_zero.

(** The balance after each row of [l] in turn. *)
Definition cumulative_sums (l : list transaction) : list A :=
  map (fun k => signed_sum (firstn k l)) (seq 1 (List.length l)).

End Ledger.

Arguments transaction A : clear implicits.
Arguments recurring A : clear implicits.
Arguments db A : clear implicits.
Arguments snapshot A : clear implicits.

(** ** Sample stores *)

Module Sample.
Definition rule (id : Z) (description frequency : string)
    (start_date : date) (end_date last_processed : option date)
  : recurring Z :=
  mkrecurring id description "Housing" 500 "Expense" "Both" frequency
    start_date end_date last_processed 1 "2024-01-01 09:00:00".

Definition entry (id : Z) (date : date) (description category : string)
    (amount : Z) (type : string) : transaction Z :=
  mktransaction id date description category amount type "Both"
    "2024-01-01 09:00:00".

(** Three daily or weekly rules; the second starts on the last day the
    calendar has. *)
Definition rent : recurring Z :=
  rule 1 "Rent" "daily" (mkdate 2024 1 1) None None.
Definition lease : recurring Z :=
  rule 2 "Lease" "weekly" (mkdate 9999 12 31) None None.
Definition power : recurring Z :=
  rule 3 "Power" "daily" (mkdate 2024 1 1) None None.
Definition three_rules : db Z := mkdb [] 0 [rent; lease; power] 3.

(** A weekly rule that ends with January. *)
Definition gym : recurring Z :=
  rule 1 "Gym" "weekly" (mkdate 2024 1 1) (Some (mkdate 2024 1 31)) None.

(** A weekly rule without an end. *)
Definition news : recurring Z :=
  rule 1 "News" "weekly" (mkdate 2024 1 1) None None.
Definition news_only : db Z := mkdb [] 0 [news] 1.

(** A ledger with one entry, and the same with a rule that has fired. *)
Definition lunch : transaction Z :=
  entry 1 (mkdate 2024 1 1) "Lunch" "Food" 10 "Expense".
Definition lunch_only : db Z := mkdb [lunch] 1 [] 0.
Definition ledger : db Z :=
  mkdb [lunch] 1 [set_last_processed (mkdate 2024 1 7) news] 1.

(** Incoming records: the lunch with another amount, the lunch under
    another category, and a rule that carries a marker. *)
Definition lunch_12 : transaction Z :=
  entry 7 (mkdate 2024 1 1) "Lunch" "Food" 12 "Expense".
Definition lunch_dining : transaction Z :=
  entry 8 (mkdate 2024 1 1) "Lunch" "Dining" 10 "Expense".
Definition news_fired : recurring Z :=
  set_last_processed (mkdate 2024 1 7) news.
End Sample.

(** * More of the program *)

(** ** Notions for the advance of a date *)

(** [n] advances of a date in a row, each from the result of the one
    before, as successive calls of the rule engine make them. *)
Fixpoint advance_times (n : nat) (frequency : string) (d : date)
  : result date :=
  match n with
  | O => Ok d
  | S n' =>
      d' <- _calculate_next_due_date d frequency ;;
      advance_times n' frequency d'
  end.

(** ** Dictionaries *)

(** [dict[key] = f(dict[key])] on a [defaultdict] whose missing values are
    [default].  A Python dictionary lists its keys in the order in which
    they were first set, so it is kept as the list of its items in that
    order. *)
Fixpoint dict_update {V : Type} (key : string) (default : V) (f : V -> V)
    (dict : list (string * V)) : list (string * V) :=
  match dict with
  | [] => [(key, f default)]
  | (k, v) :: rest =>
      if String.eqb k key then (k, f v) :: rest
      else (k, v) :: dict_update key default f rest
  end.

(** [dict.get(key)]. *)
Fixpoint dict_get {V : Type} (key : string) (dict : list (string * V))
  : option V :=
  match dict with
  | [] => None
  | (k, v) :: rest => if String.eqb k key then Some v else dict_get key rest
  end.

(** ** Comparing amounts *)

(** Python's [<] on amounts, which [sorted] compares keys with. *)
Class Ordered (A : Type) : Type := {
  num_ltb : A -> A -> bool
}.


#[export] Instance float_Ordered : Ordered float := {|
  num_ltb := PrimFloat.ltb
|}.

Section Screens.
Context {A : Type} `{Number A} `{Ordered A}.

(** ** The screens of [BudgetApp] *)

(** The [filters] dictionary that [refresh_transactions] builds from the
    three boxes of the filter bar.  An empty date box is [None]. *)
Definition refresh_filters (filter_start filter_end : option date)
    (filter_cat : string) : filters :=
  mkfilters filter_start filter_end
    (if negb (String.eqb filter_cat "") && negb (String.eqb filter_cat "All")
     then Some filter_cat else None)
    None None.

(** The rows that [refresh_transactions] puts into the table. *)
Definition refresh_transactions (filter_start filter_end : option date)
    (filter_cat : string) (d : db A) : list (transaction A) :=
  get_transactions (Some (refresh_filters filter_start filter_end filter_cat))
    d.

(** The [filters] dictionary of [update_chart] and of [update_summary]:
    the two date boxes only. *)
Definition date_filters (filter_start filter_end : option date) : filters :=
  mkfilters filter_start filter_end None None None.

(** [update_chart] up to the plotting: the points of the balance curve,
    or the exception of [strptime]. *)
Definition update_chart (filter_start filter_end : option date) (d : db A)
  : result (list (date * A)) :=
  running_balance
    (get_transactions (Some (date_filters filter_start filter_end)) d).




(** The "Category breakdown" loop of [update_summary]:
    [categories[trans[3]] += trans[4]] for every expense, on a
    [defaultdict(float)]. *)
Definition expense_categories (transactions : list (transaction A))
  : list (string * A) :=
  fold_left
    (fun categories trans =>
       if String.eqb (t_type trans) "Expense"
       then dict_update (t_category trans) num_zero
              (fun v => num_add v (t_amount trans)) categories
       else categories)
    transactions [].

(** The "Person breakdown" loop of [update_summary]; a value is the pair
    of [stats['income']] and [stats['expenses']]. *)
Definition person_stats (transactions : list (transaction A))
  : list (string * (A * A)) :=
  fold_left
    (fun person_stats trans =>
       if String.eqb (t_type trans) "Income"
       then dict_update (t_person trans) (num_zero, num_zero)
              (fun stats => (num_add (fst stats) (t_amount trans), snd stats))
              person_stats
       else dict_update (t_person trans) (num_zero, num_zero)
              (fun stats => (fst stats, num_add (snd stats) (t_amount trans)))
              person_stats)
    transactions [].


(** The first loop of [generate_category_report]; a value is the pair of
    [categories[cat]['count']] and [categories[cat]['total']]. *)
Definition category_stats (transactions : list (transaction A))
  : list (string * (Z * A)) :=
  fold_left
    (fun categories trans =>
       dict_update (t_category trans) (0, num_zero)
         (fun stats => (fst stats + 1, num_add (snd stats) (t_amount trans)))
         categories)
    transactions [].

(** [trans[2][:20] + "..." if len(trans[2]) > 20 else trans[2]] of
    [update_info]. *)
Definition short_description (description : string) : string :=
  if 20 <? Z.of_nat (String.length description)
  then substring 0 20 description ++ "..."
  else description.

(** The "Recent Activity" lines of [update_info]: date, shortened
    description and amount of [transactions[:5]]. *)
Definition recent_activity (d : db A) : list (date * string * A) :=
  map (fun trans =>
         (t_date trans, short_description (t_description trans),
          t_amount trans))
      (firstn 5 (get_transactions None d)).

(** ** [main]

    The constructor of [BudgetApp] processes the recurring rules and draws
    the screens, of which only the chart can raise; [main] then processes
    the rules once more and shows its message when that second call
    counted something.  The result is the count in the message, if there
    is one. *)
Definition main (today : date) (now1 now2 : string) (d : db A)
  : db A * result (option Z) :=
  match process_recurring_transactions today now1 d with
  | (d1, Raise e) => (d1, Raise e)
  | (d1, Ok _) =>
      match update_chart None None d1 with
      | Raise e => (d1, Raise e)
      | Ok _ =>
          match process_recurring_transactions today now2 d1 with
          | (d2, Raise e) => (d2, Raise e)
          | (d2, Ok processed) =>
              (d2, Ok (if 0 <? processed then Some processed else None))
          end
      end
  end.

(** ** Notions for the store *)

(** The primary keys: no id twice in a table, and none above the counter
    of its table. *)
Definition keys_ok (d : db A) : Prop :=
  NoDup (map t_id (transactions d)) /\
  Forall (fun t => t_id t <= transactions_seq d) (transactions d) /\
  NoDup (map r_id (recurring_transactions d)) /\
  Forall (fun r => r_id r <= recurring_seq d) (recurring_transactions d).

(** Everything of a rule but its marker. *)
Definition recurring_static (r : recurring A)
  : Z * (string * string * A * string * string * string * date * option date)
    * Z * string :=
  (r_id r, recurring_fields r, r_active r, r_created_at r).

(** A merge takes [t] for [trans]: the test of [duplicate_transaction]. *)
Definition same_key (t trans : transaction A) : Prop :=
  t_date t = t_date trans /\
  t_description t = t_description trans /\
  num_eqb (t_amount t) (t_amount trans) = true.

(** Date ascending, and within a date id descending. *)
Definition date_asc_id_desc (a b : transaction A) : Prop :=
  date_compare (t_date a) (t_date b) = Lt \/
  (t_date a = t_date b /\ t_id b <= t_id a).

(** The sum of a list of amounts, from the left. *)
Definition amount_sum (l : list A) : A := fold_left num_add l num_zero.

End Screens.

(** ** A sample household *)

Module Household.
Definition salary : transaction Z :=
  Sample.entry 1 (mkdate 2024 1 5) "Salary" "Work" 3000 "Income".
Definition groceries : transaction Z :=
  Sample.entry 2 (mkdate 2024 1 7) "Groceries" "Food" 120 "Expense".
Definition dinner : transaction Z :=
  Sample.entry 3 (mkdate 2024 1 7) "Dinner" "Food" 45 "Expense".

(** Three entries and a weekly rule, and the same with the entries stored
    in another order. *)
Definition books : db Z :=
  mkdb [salary; groceries; dinner] 3 [Sample.news] 1.
Definition shuffled : db Z :=
  mkdb [dinner; salary; groceries] 3 [Sample.news] 1.

(** A snapshot with two records that the books do not hold. *)
Definition incoming : snapshot Z :=
  mksnapshot [Sample.lunch; Sample.lunch_12] [Sample.gym]
    "2024-01-10T08:00:00" "1.0".
End Household.

(** * Properties *)

(** ** The order of dates *)

Ltac date_cases :=
  unfold date_leb, date_eqb, date_compare in *; simpl in *;
  repeat match goal with
         | |- context [?x ?= ?y] => destruct (Z.compare_spec x y)
         | H : context [?x ?= ?y] |- _ => destruct (Z.compare_spec x y)
         end;
  subst; try reflexivity; try discriminate; try lia.

Lemma date_compare_refl (a : date) : date_compare a a = Eq.
Proof. destruct a. unfold date_compare. simpl. now rewrite !Z.compare_refl. Qed.

Lemma date_compare_eq (a b : date) : date_compare a b = Eq -> a = b.
Proof. destruct a, b. intros E. date_cases. Qed.

Lemma date_compare_antisym (a b : date) :
  date_compare b a = CompOpp (date_compare a b).
Proof. destruct a, b. date_cases. Qed.

Lemma date_compare_gt_trans (a b c : date) :
  date_compare a b = Gt -> date_compare b c = Gt -> date_compare a c = Gt.
Proof. destruct a, b, c. intros E1 E2. date_cases. Qed.

Lemma date_eqb_eq (a b : date) : date_eqb a b = true <-> a = b.
Proof.
  split.
  - unfold date_eqb. intros E. apply date_compare_eq.
    destruct (date_compare a b); congruence.
  - intros ->. unfold date_eqb. now rewrite date_compare_refl.
Qed.

Lemma date_leb_refl (a : date) : date_leb a a = true.
Proof. unfold date_leb. now rewrite date_compare_refl. Qed.

Lemma date_leb_trans (a b c : date) :
  date_leb a b = true -> date_leb b c = true -> date_leb a c = true.
Proof. destruct a, b, c. intros E1 E2. date_cases. Qed.

Lemma date_leb_total (a b : date) :
  date_leb a b = true \/ date_leb b a = true.
Proof. destruct a, b. date_cases; auto. Qed.

Lemma date_leb_antisym (a b : date) :
  date_leb a b = true -> date_leb b a = true -> a = b.
Proof. destruct a, b. intros E1 E2. date_cases. Qed.

Lemma date_leb_false (a b : date) :
  date_leb a b = false -> date_leb b a = true /\ a <> b.
Proof.
  destruct a, b. intros E. split; [date_cases|].
  intros Heq. injection Heq as -> -> ->.
  unfold date_leb, date_compare in E. simpl in E.
  now rewrite !Z.compare_refl in E.
Qed.

(** ** The calendar *)

(** A test that holds on the first [k] numbers, one by one, holds on
    each of them. *)
Lemma range_check (P : Z -> bool) (k : nat) :
  forallb P (map Z.of_nat (seq 0 k)) = true ->
  forall n, 0 <= n < Z.of_nat k -> P n = true.
Proof.
  intros Hall n Hn. rewrite forallb_forall in Hall. apply Hall.
  apply in_map_iff. exists (Z.to_nat n). split; [lia|].
  apply in_seq. lia.
Qed.

(** The month and the day are right on every day of a year but the 366th,
    by running the test on all of them. *)
Lemma month_day_ok_all (leap : bool) (n : Z) :
  0 <= n < 365 -> month_day_ok leap n = true.
Proof.
  intros Hn. apply (range_check (month_day_ok leap) 365); [|lia].
  destruct leap; vm_compute; reflexivity.
Qed.

(** The year that begins after [a] cycles of 400 years, [b] centuries,
    [c] spans of four years and [e] years: the days before it, and
    whether it is a leap year. *)
Lemma year_decomp (a b c e : Z) :
  0 <= a -> 0 <= b <= 3 -> 0 <= c <= 24 -> 0 <= e <= 3 ->
  days_before_year (400 * a + 100 * b + 4 * c + e + 1)
  = 146097 * a + 36524 * b + 1461 * c + 365 * e /\
  is_leap (400 * a + 100 * b + 4 * c + e + 1)
  = (e =? 3) && (negb (c =? 24) || (b =? 3)).
Proof.
  intros Ha Hb Hc He. split.
  - unfold days_before_year. Z.div_mod_to_equations. lia.
  - unfold is_leap.
    destruct (Z.eqb_spec e 3), (Z.eqb_spec c 24), (Z.eqb_spec b 3);
      repeat match goal with
             | |- context [?x =? 0] => destruct (Z.eqb_spec x 0)
             end; simpl; try reflexivity;
      exfalso; Z.div_mod_to_equations; lia.
Qed.

(** [fromordinal] inverts [toordinal]: every ordinal up to [MAXORDINAL]
    is turned into a calendar day that has this ordinal. *)
Lemma fromordinal_spec (o : Z) :
  1 <= o <= MAXORDINAL ->
  valid_date (fromordinal o) = true /\ toordinal (fromordinal o) = o.
Proof.
  unfold MAXORDINAL. intros Ho. unfold fromordinal. cbv zeta.
  set (n := o - 1).
  set (a := n / 146097). set (r1 := n mod 146097).
  set (b := r1 / 36524). set (r2 := r1 mod 36524).
  set (c := r2 / 1461). set (r3 := r2 mod 1461).
  set (e := r3 / 365). set (r4 := r3 mod 365).
  assert (Hn : n = 146097 * a + r1 /\ 0 <= r1 < 146097)
    by (unfold a, r1; Z.div_mod_to_equations; lia).
  assert (H1 : r1 = 36524 * b + r2 /\ 0 <= r2 < 36524)
    by (unfold b, r2; Z.div_mod_to_equations; lia).
  assert (H2 : r2 = 1461 * c + r3 /\ 0 <= r3 < 1461)
    by (unfold c, r3; Z.div_mod_to_equations; lia).
  assert (H3 : r3 = 365 * e + r4 /\ 0 <= r4 < 365)
    by (unfold e, r4; Z.div_mod_to_equations; lia).
  assert (Hn0 : 0 <= n <= 3652058 /\ o = n + 1) by (unfold n; lia).
  clearbody a r1 b r2 c r3 e r4 n.
  destruct (Z.eqb_spec e 4) as [He|He]; simpl orb.
  - (* the last day of a leap year inside a century *)
    replace (a * 400 + 1 + b * 100 + c * 4 + e - 1)
      with (400 * a + 100 * b + 4 * c + 3 + 1) by lia.
    destruct (year_decomp a b c 3) as [Hd Hl]; try lia.
    unfold valid_date, toordinal, days_in_month, days_before_month,
      MINYEAR, MAXYEAR. cbn [year month day].
    rewrite Hd, Hl.
    destruct (Z.eqb_spec c 24); [lia|]. cbn -[Z.mul Z.add Z.sub].
    split; [|lia].
    rewrite !andb_true_iff, !Z.leb_le. lia.
  - destruct (Z.eqb_spec b 4) as [Hb|Hb].
    + (* the last day of a year divisible by 400 *)
      replace (a * 400 + 1 + b * 100 + c * 4 + e - 1)
        with (400 * a + 100 * 3 + 4 * 24 + 3 + 1) by lia.
      destruct (year_decomp a 3 24 3) as [Hd Hl]; try lia.
      unfold valid_date, toordinal, days_in_month, days_before_month,
        MINYEAR, MAXYEAR. cbn [year month day].
      rewrite Hd, Hl. cbn -[Z.mul Z.add Z.sub].
      split; [|lia].
      rewrite !andb_true_iff, !Z.leb_le. lia.
    + replace (a * 400 + 1 + b * 100 + c * 4 + e)
        with (400 * a + 100 * b + 4 * c + e + 1) by lia.
      destruct (year_decomp a b c e) as [Hd Hl]; try lia.
      set (leap := (e =? 3) && (negb (c =? 24) || (b =? 3))) in *.
      pose proof (month_day_ok_all leap r4 (proj2 H3)) as Hmd.
      unfold month_day_ok in Hmd.
      destruct (r4 <? _);
        repeat (apply andb_true_iff in Hmd as [Hmd ?]);
        unfold valid_date, toordinal, days_in_month, days_before_month,
          MINYEAR, MAXYEAR; cbn [year month day]; rewrite Hd, Hl;
        repeat match goal with
               | H : (_ <=? _) = true |- _ => apply Z.leb_le in H
               | H : (_ =? _) = true |- _ => apply Z.eqb_eq in H
               end;
        (split; [rewrite !andb_true_iff, !Z.leb_le; lia | lia]).
Qed.

(** Adding days to a date gives a calendar day, the one as many days
    on. *)
Lemma add_days_spec (d d' : date) (n : Z) :
  add_days d n = Ok d' ->
  valid_date d' = true /\ toordinal d' = toordinal d + n.
Proof.
  unfold add_days.
  destruct (_ && _) eqn:E; [|discriminate].
  intros [= <-]. apply fromordinal_spec.
  apply andb_true_iff in E as [E1 E2].
  apply Z.ltb_lt in E1. apply Z.leb_le in E2. lia.
Qed.

Lemma replace_spec (d d' : date) (y m : Z) :
  replace d y m = Ok d' -> valid_date d' = true /\ d' = mkdate y m (day d).
Proof.
  unfold replace. destruct (valid_date _) eqn:E; [|discriminate].
  intros [= <-]. now split.
Qed.

(** Whatever [_calculate_next_due_date] returns is a calendar day. *)
Lemma advance_valid (d d' : date) (frequency : string) :
  _calculate_next_due_date d frequency = Ok d' -> valid_date d' = true.
Proof.
  unfold _calculate_next_due_date.
  repeat match goal with
         | |- context [if ?b then _ else _] => destruct b
         end;
    intros Hd;
    (apply add_days_spec in Hd || apply replace_spec in Hd); tauto.
Qed.

(** ** The insertion sort *)

Section SortFacts.
Context {T : Type} (leb : T -> T -> bool).

Lemma insert_perm (x : T) (l : list T) :
  Permutation (insert leb x l) (x :: l).
Proof.
  induction l as [|y l IH]; simpl.
  - reflexivity.
  - destruct (leb x y).
    + reflexivity.
    + rewrite IH. apply perm_swap.
Qed.

Lemma sort_perm (l : list T) : Permutation (sort leb l) l.
Proof.
  induction l as [|x l IH]; simpl.
  - reflexivity.
  - rewrite insert_perm. now constructor.
Qed.

Lemma sort_In (l : list T) (x : T) : In x (sort leb l) <-> In x l.
Proof.
  split; apply Permutation_in;
    [apply sort_perm | apply Permutation_sym, sort_perm].
Qed.

Lemma sort_length (l : list T) : List.length (sort leb l) = List.length l.
Proof. apply Permutation_length, sort_perm. Qed.

(** What is sorted: any relation that holds when [leb] answers yes, that
    holds one way round when it answers no, and that is transitive. *)
Section Sorted.
Variable R : T -> T -> Prop.
Hypothesis leb_R : forall x y, leb x y = true -> R x y.
Hypothesis not_leb_R : forall x y, leb x y = false -> R y x.
Hypothesis R_trans : forall x y z, R x y -> R y z -> R x z.

Lemma insert_sorted (x : T) (l : list T) :
  StronglySorted R l -> StronglySorted R (insert leb x l).
Proof.
  induction 1 as [|y l Hs IH Hy]; simpl.
  - repeat constructor.
  - destruct (leb x y) eqn:E.
    + constructor; [now constructor|].
      constructor; [now apply leb_R|].
      rewrite Forall_forall in *. intros z Hz.
      apply R_trans with y; auto.
    + constructor; [exact IH|].
      rewrite Forall_forall in *. intros z Hz.
      apply (Permutation_in _ (insert_perm x l)) in Hz.
      destruct Hz as [<-|Hz]; auto.
Qed.

Lemma sort_sorted (l : list T) : StronglySorted R (sort leb l).
Proof.
  induction l as [|x l IH]; simpl.
  - constructor.
  - now apply insert_sorted.
Qed.
End Sorted.

(** Stability: rows picked out by [p] keep their order, when [p] picks
    no row that [x] is moved behind. *)
Lemma insert_filter (p : T -> bool) (x : T) (l : list T) :
  (p x = true -> forall y, leb x y = false -> p y = false) ->
  filter p (insert leb x l) = filter p (x :: l).
Proof.
  intros Hp. induction l as [|y l IH]; simpl.
  - reflexivity.
  - destruct (leb x y) eqn:E.
    + reflexivity.
    + simpl in *. rewrite IH.
      destruct (p x) eqn:Px; [|reflexivity].
      now rewrite (Hp eq_refl y E).
Qed.

(** Sorting commutes with a map that [leb] does not see. *)
Lemma sort_map (f : T -> T) (l : list T) :
  (forall a b, leb (f a) (f b) = leb a b) ->
  sort leb (map f l) = map f (sort leb l).
Proof.
  intros Hf. induction l as [|x l IH]; simpl.
  - reflexivity.
  - rewrite IH. clear IH. induction (sort leb l) as [|y s IHs]; simpl.
    + reflexivity.
    + rewrite Hf. destruct (leb x y); simpl; [reflexivity|].
      now rewrite IHs.
Qed.
End SortFacts.

(** ** The advance of a date *)

Lemma valid_date_bounds (d : date) :
  valid_date d = true ->
  MINYEAR <= year d <= MAXYEAR /\ 1 <= month d <= 12 /\
  1 <= day d <= days_in_month (year d) (month d).
Proof.
  unfold valid_date. rewrite !andb_true_iff, !Z.leb_le. tauto.
Qed.

Ltac leb_true :=
  repeat match goal with
         | |- context [?a <=? ?b] =>
             rewrite (proj2 (Z.leb_le a b)) by lia
         end.

(** What the monthly branch returns for a calendar day: the same day of
    the next month where there is one, and [ValueError] otherwise. *)
Lemma monthly_advance_result (d : date) :
  valid_date d = true ->
  _calculate_next_due_date d "monthly" =
  let y := if month d =? 12 then year d + 1 else year d in
  let m := if month d =? 12 then 1 else month d + 1 in
  if (y <=? MAXYEAR) && (day d <=? days_in_month y m)
  then Ok (mkdate y m (day d)) else Raise ValueError.
Proof.
  intros Hv. apply valid_date_bounds in Hv.
  unfold _calculate_next_due_date. simpl.
  unfold replace, valid_date, MINYEAR, MAXYEAR in *.
  destruct (Z.eqb_spec (month d) 12) as [Hm|Hm]; simpl; leb_true;
    now rewrite ?andb_true_l, ?andb_true_r.
Qed.

(** The same for the yearly branch. *)
Lemma yearly_advance_result (d : date) :
  valid_date d = true ->
  _calculate_next_due_date d "yearly" =
  if (year d + 1 <=? MAXYEAR)
     && (day d <=? days_in_month (year d + 1) (month d))
  then Ok (mkdate (year d + 1) (month d) (day d)) else Raise ValueError.
Proof.
  intros Hv. apply valid_date_bounds in Hv.
  unfold _calculate_next_due_date. simpl.
  unfold replace, valid_date, MINYEAR, MAXYEAR in *. simpl. leb_true.
  now rewrite ?andb_true_l, ?andb_true_r.
Qed.

(** C1 (the code departs from it): the monthly advance of 31 January and
    the yearly advance of 29 February, both calendar days, raise
    [ValueError]; no clamped date is returned. *)
Theorem advance_raises_on_missing_day :
  valid_date (mkdate 2024 1 31) = true /\
  _calculate_next_due_date (mkdate 2024 1 31) "monthly" = Raise ValueError /\
  valid_date (mkdate 2024 2 29) = true /\
  _calculate_next_due_date (mkdate 2024 2 29) "yearly" = Raise ValueError.
Proof. repeat split. Qed.



(** ** The recurring-rule loop *)

Section ProcessFacts.
Context {A : Type} `{Number A}.
Variables (today : date) (now : string).

(** One turn of the loop, read off the outcome of its rule. *)
Lemma process_loop_cons (rec : recurring A) (rest : list (recurring A))
    (n : Z) (d : db A) :
  process_loop today now (rec :: rest) n d =
  match rule_outcome today rec with
  | Raise e => (d, Raise e)
  | Ok (Some next_due) =>
      process_loop today now rest (n + 1)
        (update_last_processed next_due (r_id rec)
           (fst (add_transaction now next_due
                   (r_description rec ++ " (Auto)") (r_category rec)
                   (r_amount rec) (r_type rec) (r_person rec) d)))
  | Ok None => process_loop today now rest n d
  end.
Proof.
  unfold rule_outcome. simpl.
  destruct (next_due_date rec) as [next_due|e]; simpl; [|reflexivity].
  destruct (due_within_end_date today next_due (r_end_date rec))
    as [[|]|e]; reflexivity.
Qed.

Lemma process_loop_raise (l1 l2 : list (recurring A)) (rec : recurring A)
    (e : exn) :
  rule_outcome today rec = Raise e ->
  forall n d d1 n1,
    process_loop today now l1 n d = (d1, Ok n1) ->
    process_loop today now (l1 ++ rec :: l2)%list n d = (d1, Raise e).
Proof.
  intros He. induction l1 as [|r l1 IH]; intros n d d1 n1 Hl.
  - simpl in Hl. injection Hl as <- <-.
    simpl app. rewrite process_loop_cons, He. reflexivity.
  - simpl app. rewrite process_loop_cons in *.
    destruct (rule_outcome today r) as [[next_due|]|e']; eauto.
    discriminate Hl.
Qed.

Lemma process_loop_count (l : list (recurring A)) :
  forall n d d' m,
    process_loop today now l n d = (d', Ok m) ->
    Forall (fun rec => exists o, rule_outcome today rec = Ok o) l /\
    m = n + Z.of_nat (List.length (filter (is_due today) l)).
Proof.
  induction l as [|r l IH]; intros n d d' m Hl.
  - simpl in *. injection Hl as <- <-. split; [constructor | lia].
  - rewrite process_loop_cons in Hl. simpl filter. unfold is_due at 1.
    destruct (rule_outcome today r) as [[next_due|]|e] eqn:E;
      [| |discriminate Hl];
      apply IH in Hl as [Hall ->];
      (split; [constructor; eauto | simpl List.length; lia]).
Qed.


(** Rows whose id no rule of the list has are left alone, whatever the
    outcome of the loop. *)
Lemma process_loop_untouched (l : list (recurring A)) :
  forall n d d' res r,
    process_loop today now l n d = (d', res) ->
    In r (recurring_transactions d) ->
    ~ In (r_id r) (map r_id l) ->
    In r (recurring_transactions d').
Proof.
  induction l as [|rec l IH]; intros n d d' res r Hl Hr Hid.
  - simpl in Hl. now injection Hl as <- _.
  - rewrite process_loop_cons in Hl. simpl in Hid.
    destruct (rule_outcome today rec) as [[next_due|]|e].
    + eapply IH; [exact Hl| |tauto].
      simpl. apply in_map_iff. exists r. split; [|exact Hr].
      destruct (Z.eqb_spec (r_id r) (r_id rec)); [|reflexivity].
      exfalso. apply Hid. left. congruence.
    + eapply IH; [exact Hl|exact Hr|tauto].
    + now injection Hl as <- _.
Qed.


Lemma process_loop_seq (l : list (recurring A)) :
  forall n d d' res,
    process_loop today now l n d = (d', res) ->
    transactions_seq d <= transactions_seq d'.
Proof.
  induction l as [|rec l IH]; intros n d d' res Hl.
  - simpl in Hl. injection Hl as <- _. lia.
  - rewrite process_loop_cons in Hl.
    destruct (rule_outcome today rec) as [[next_due|]|e].
    + apply IH in Hl. simpl in Hl. lia.
    + eapply IH; eassumption.
    + injection Hl as <- _. lia.
Qed.


(** The rule table after a loop that ran to its end. *)
Lemma process_loop_rules (l : list (recurring A)) :
  forall n d d' m,
    NoDup (map r_id l) ->
    (forall rec r, In rec l -> In r (recurring_transactions d) ->
                   r_id r = r_id rec -> r = rec) ->
    process_loop today now l n d = (d', Ok m) ->
    recurring_transactions d' =
    map (fun r => if existsb (fun rec => r_id rec =? r_id r) l
                  then advance_rule today r else r)
        (recurring_transactions d).
Proof.
  induction l as [|rec l IH]; intros n d d' m Hnd Hrow Hl.
  - simpl in *. injection Hl as <- _. now rewrite map_id.
  - rewrite process_loop_cons in Hl.
    simpl in Hnd. apply NoDup_cons_iff in Hnd as [Hfresh Hnd].
    assert (Hnot : forall r : recurring A, r_id r = r_id rec ->
              existsb (fun rec' => r_id rec' =? r_id r) l = false).
    { intros r Hr. apply not_true_is_false. intros Hex.
      apply existsb_exists in Hex as (rec' & Hin' & Heq).
      apply Z.eqb_eq in Heq. apply Hfresh. apply in_map_iff.
      exists rec'. split; [congruence|exact Hin']. }
    destruct (rule_outcome today rec) as [[next_due|]|e] eqn:Ho;
      [| |discriminate Hl].
    + apply IH in Hl; [|exact Hnd|].
      * rewrite Hl. simpl recurring_transactions. rewrite map_map.
        apply map_ext_in. intros r Hr. simpl existsb.
        destruct (Z.eqb_spec (r_id r) (r_id rec)) as [Heq|Hne].
        -- assert (r = rec) by (apply Hrow; simpl; auto). subst r.
           rewrite Z.eqb_refl. simpl.
           rewrite (Hnot rec eq_refl).
           unfold advance_rule. now rewrite Ho.
        -- destruct (Z.eqb_spec (r_id rec) (r_id r)); [congruence|].
           reflexivity.
      * intros rec' r Hin' Hr Hid. simpl in Hr.
        apply in_map_iff in Hr as (r0 & <- & Hr0).
        destruct (Z.eqb_spec (r_id r0) (r_id rec)) as [Heq|Hne].
        -- exfalso. apply Hfresh. apply in_map_iff. exists rec'.
           split; [|exact Hin']. simpl in Hid. congruence.
        -- apply Hrow; simpl; auto.
    + apply IH in Hl; [|exact Hnd|].
      * rewrite Hl. apply map_ext_in. intros r Hr. simpl existsb.
        destruct (Z.eqb_spec (r_id rec) (r_id r)) as [Heq|Hne];
          [|reflexivity].
        assert (r = rec) by (apply Hrow; simpl; auto). subst r.
        rewrite (Hnot rec eq_refl). unfold advance_rule. now rewrite Ho.
      * intros rec' r Hin' Hr Hid. apply Hrow; simpl; auto.
Qed.
End ProcessFacts.

(** ** The active rules *)

Section ActiveRules.
Context {A : Type} `{Number A}.

Lemma get_recurring_In (d : db A) (rec : recurring A) :
  In rec (get_recurring_transactions d) <->
  In rec (recurring_transactions d) /\ r_active rec = 1.
Proof.
  unfold get_recurring_transactions.
  rewrite sort_In, filter_In, Z.eqb_eq. reflexivity.
Qed.

Lemma NoDup_map_filter {X Y : Type} (f : X -> Y) (p : X -> bool)
    (l : list X) :
  NoDup (map f l) -> NoDup (map f (filter p l)).
Proof.
  induction l as [|x l IH]; simpl; intros Hnd.
  - constructor.
  - apply NoDup_cons_iff in Hnd as [Hx Hnd].
    destruct (p x); simpl; auto.
    constructor; auto. intros Hin. apply Hx.
    apply in_map_iff in Hin as (y & Hy & Hin).
    apply filter_In in Hin as [Hin _].
    apply in_map_iff. eauto.
Qed.

Lemma get_recurring_NoDup (d : db A) :
  NoDup (map r_id (recurring_transactions d)) ->
  NoDup (map r_id (get_recurring_transactions d)).
Proof.
  intros Hnd. unfold get_recurring_transactions.
  eapply Permutation_NoDup.
  - apply Permutation_map, Permutation_sym, sort_perm.
  - now apply NoDup_map_filter.
Qed.

(** With ids a key, the id names the row. *)
Lemma NoDup_map_inj {X Y : Type} (f : X -> Y) (l : list X) (a b : X) :
  NoDup (map f l) -> In a l -> In b l -> f a = f b -> a = b.
Proof.
  induction l as [|x l IH]; simpl; intros Hnd Ha Hb Hf.
  - destruct Ha.
  - apply NoDup_cons_iff in Hnd as [Hx Hnd].
    destruct Ha as [->|Ha], Hb as [->|Hb]; auto.
    + exfalso. apply Hx. rewrite Hf. now apply in_map.
    + exfalso. apply Hx. rewrite <- Hf. now apply in_map.
Qed.

Lemma NoDup_app_disjoint {X : Type} (l1 l2 : list X) (a : X) :
  NoDup (l1 ++ l2) -> In a l1 -> ~ In a l2.
Proof.
  induction l1 as [|x l1 IH]; simpl; intros Hnd Ha Hb.
  - destruct Ha.
  - apply NoDup_cons_iff in Hnd as [Hx Hnd].
    destruct Ha as [->|Ha]; [|now apply IH].
    apply Hx, in_or_app. now right.
Qed.

Lemma get_recurring_row (d : db A) (rec r : recurring A) :
  NoDup (map r_id (recurring_transactions d)) ->
  In rec (get_recurring_transactions d) ->
  In r (recurring_transactions d) ->
  r_id r = r_id rec -> r = rec.
Proof.
  intros Hnd Hrec Hr Hid. apply get_recurring_In in Hrec as [Hrec _].
  eapply NoDup_map_inj; eassumption.
Qed.

Lemma filter_map_comm {X : Type} (p : X -> bool) (f : X -> X)
    (l : list X) :
  (forall x, p (f x) = p x) ->
  filter p (map f l) = map f (filter p l).
Proof.
  intros Hp. induction l as [|x l IH]; simpl.
  - reflexivity.
  - rewrite Hp, IH. now destruct (p x).
Qed.

Lemma advance_rule_id (today : date) (r : recurring A) :
  r_id (advance_rule today r) = r_id r.
Proof.
  unfold advance_rule.
  now destruct (rule_outcome today r) as [[next_due|]|e].
Qed.

Lemma advance_rule_active (today : date) (r : recurring A) :
  r_active (advance_rule today r) = r_active r.
Proof.
  unfold advance_rule.
  now destruct (rule_outcome today r) as [[next_due|]|e].
Qed.

(** After a call that returned, the active rules are the active rules
    of before, each advanced. *)
Lemma process_advances_rules (today : date) (now : string) (d d1 : db A)
    (n1 : Z) :
  NoDup (map r_id (recurring_transactions d)) ->
  process_recurring_transactions today now d = (d1, Ok n1) ->
  get_recurring_transactions d1 =
  map (advance_rule today) (get_recurring_transactions d).
Proof.
  intros Hnd Hp. unfold process_recurring_transactions in Hp.
  apply process_loop_rules in Hp;
    [|now apply get_recurring_NoDup
     |intros rec r Hrec Hr Hid; now apply (get_recurring_row d)].
  unfold get_recurring_transactions at 1. rewrite Hp.
  set (g := fun r : recurring A =>
              if existsb (fun rec => r_id rec =? r_id r)
                   (get_recurring_transactions d)
              then advance_rule today r else r).
  assert (Hid : forall r, r_id (g r) = r_id r).
  { intros r. unfold g. destruct (existsb _ _); [|reflexivity].
    apply advance_rule_id. }
  assert (Hact : forall r, r_active (g r) = r_active r).
  { intros r. unfold g. destruct (existsb _ _); [|reflexivity].
    apply advance_rule_active. }
  rewrite filter_map_comm by (intros r; now rewrite Hact).
  rewrite sort_map by (intros a b; now rewrite !Hid).
  apply map_ext_in. intros r Hr.
  change (In r (get_recurring_transactions d)) in Hr.
  unfold g.
  replace (existsb _ _) with true; [reflexivity|].
  symmetry. apply existsb_exists. exists r. split; [exact Hr|].
  apply Z.eqb_refl.
Qed.
End ActiveRules.

(** ** Calls of [process_recurring_transactions] *)

Section ProcessCalls.
Context {A : Type} `{Number A}.
Variables (today : date) (now : string).

Lemma process_loop_total (l : list (recurring A)) :
  Forall (fun rec => exists o, rule_outcome today rec = Ok o) l ->
  forall n d, exists d',
    process_loop today now l n d
    = (d', Ok (n + Z.of_nat (List.length (filter (is_due today) l)))).
Proof.
  induction 1 as [|r l [o Hr] _ IH]; intros n d.
  - exists d. simpl. f_equal. f_equal. lia.
  - rewrite process_loop_cons. simpl filter. unfold is_due at 1.
    rewrite Hr. destruct o as [next_due|].
    + edestruct IH as [d' Hd']. exists d'. rewrite Hd'.
      f_equal. f_equal. simpl List.length. lia.
    + apply IH.
Qed.

Lemma process_loop_length (l : list (recurring A)) :
  forall n d d' m,
    process_loop today now l n d = (d', Ok m) ->
    Z.of_nat (List.length (transactions d'))
    = Z.of_nat (List.length (transactions d)) + (m - n).
Proof.
  induction l as [|r l IH]; intros n d d' m Hl.
  - simpl in Hl. injection Hl as <- <-. lia.
  - rewrite process_loop_cons in Hl.
    destruct (rule_outcome today r) as [[next_due|]|e];
      [| |discriminate Hl]; apply IH in Hl; [|exact Hl].
    simpl in Hl. rewrite length_app in Hl. simpl in Hl. lia.
Qed.

(** C2 (as amended): a rule whose evaluation raises ends the call with
    that exception.  The rules listed before it have been processed and
    their rows stay written; the rule itself and the rules after it are
    left as they were, and no row is written for them. *)
Theorem process_due_stops_at_fault (d : db A)
    (l1 l2 : list (recurring A)) (rec : recurring A) (e : exn) :
  NoDup (map r_id (recurring_transactions d)) ->
  get_recurring_transactions d = (l1 ++ rec :: l2)%list ->
  Forall (fun r => exists o, rule_outcome today r = Ok o) l1 ->
  rule_outcome today rec = Raise e ->
  exists d1 n1,
    process_recurring_transactions today now d = (d1, Raise e) /\
    process_loop today now l1 0 d = (d1, Ok n1) /\
    n1 = Z.of_nat (List.length (filter (is_due today) l1)) /\
    Z.of_nat (List.length (transactions d1))
    = Z.of_nat (List.length (transactions d)) + n1 /\
    (forall r, In r (rec :: l2) -> In r (recurring_transactions d1)).
Proof.
  intros Hnd Hl Hok He.
  destruct (process_loop_total l1 Hok 0 d) as [d1 Hd1].
  exists d1, (Z.of_nat (List.length (filter (is_due today) l1))).
  split; [|split; [exact Hd1|split; [reflexivity|split]]].
  - unfold process_recurring_transactions. rewrite Hl.
    eapply process_loop_raise; eassumption.
  - apply process_loop_length in Hd1. lia.
  - intros r Hr.
    assert (Hall : In r (get_recurring_transactions d)).
    { rewrite Hl. apply in_or_app. now right. }
    eapply process_loop_untouched; [exact Hd1| |].
    + now apply get_recurring_In in Hall.
    + pose proof (get_recurring_NoDup d Hnd) as Hnd'.
      rewrite Hl, map_app in Hnd'. intros Hin.
      apply (NoDup_app_disjoint _ _ _ Hnd' Hin).
      now apply (in_map r_id) in Hr.
Qed.
End ProcessCalls.

Ltac nodup_ids :=
  simpl; repeat constructor; simpl; intuition discriminate.

(** C2 (as stated, refuted): with the rules [rent], [lease], [power], the
    evaluation of [lease] raises, and the call ends there: [power], which
    is due, is left without its row. *)
Lemma process_due_fault_halts_rules :
  let today := mkdate 2024 1 10 in
  rule_outcome today Sample.lease = Raise OverflowError /\
  rule_outcome today Sample.power = Ok (Some (mkdate 2024 1 1)) /\
  exists d1,
    process_recurring_transactions today "2024-01-10 08:00:00"
      Sample.three_rules = (d1, Raise OverflowError) /\
    transactions d1
    = [auto_transaction 1 "2024-01-10 08:00:00" (mkdate 2024 1 1)
         Sample.rent] /\
    In Sample.power (recurring_transactions d1) /\
    ~ (exists t, In t (transactions d1) /\
                 t_description t = "Power (Auto)").
Proof.
  simpl. split; [reflexivity|]. split; [reflexivity|].
  eexists. split; [vm_compute; reflexivity|].
  split; [reflexivity|]. split; [simpl; tauto|].
  intros (t & [<-|[]] & Hd). discriminate Hd.
Qed.

(** The three rules again: [rent] is processed, [lease] raises, [lease]
    and [power] stay as they were. *)
Lemma process_due_stops_at_fault_witness :
  exists d1 n1,
    process_recurring_transactions (mkdate 2024 1 10) "2024-01-10 08:00:00"
      Sample.three_rules = (d1, Raise OverflowError) /\
    process_loop (mkdate 2024 1 10) "2024-01-10 08:00:00" [Sample.rent] 0
      Sample.three_rules = (d1, Ok n1) /\
    n1 = Z.of_nat
           (List.length (filter (is_due (mkdate 2024 1 10)) [Sample.rent])) /\
    Z.of_nat (List.length (transactions d1))
    = Z.of_nat (List.length (transactions Sample.three_rules)) + n1 /\
    (forall r, In r [Sample.lease; Sample.power] ->
               In r (recurring_transactions d1)).
Proof.
  apply (process_due_stops_at_fault (mkdate 2024 1 10) "2024-01-10 08:00:00"
           Sample.three_rules [Sample.rent] [Sample.power] Sample.lease
           OverflowError).
  - nodup_ids.
  - reflexivity.
  - constructor; [|constructor]. eexists. reflexivity.
  - reflexivity.
Defined.

Section EndDateAndRepeat.
Context {A : Type} `{Number A}.
Variables (today : date) (now : string).



End EndDateAndRepeat.





(** ** Import *)

Section ImportFacts.
Context {A : Type} `{Number A}.
Variable now : string.

Lemma get_transactions_In (f : option filters) (d : db A)
    (t : transaction A) :
  In t (get_transactions f d) <->
  In t (transactions d) /\ where_clause f t = true.
Proof. unfold get_transactions. now rewrite sort_In, filter_In. Qed.

Lemma where_same_date (p : date) (t : transaction A) :
  where_clause (Some (mkfilters (Some p) (Some p) None None None)) t = true
  <-> t_date t = p.
Proof.
  simpl. rewrite !andb_true_r, andb_true_iff. split.
  - intros [H1 H2]. now apply date_leb_antisym.
  - intros ->. now rewrite date_leb_refl.
Qed.

Lemma merge_skips_transaction (trans : transaction A) (d : db A) :
  existsb (same_transaction trans)
    (get_transactions
       (Some (mkfilters (Some (t_date trans)) (Some (t_date trans))
                        None None None)) d) = true
  <-> duplicate_transaction trans d.
Proof.
  rewrite existsb_exists. unfold duplicate_transaction, same_transaction.
  split.
  - intros (t & Hin & Hsame).
    apply get_transactions_In in Hin as [Hin Hw].
    apply andb_true_iff in Hsame as [Hsame Hdate].
    apply andb_true_iff in Hsame as [Hdesc Hamount].
    exists t. repeat split; auto.
    + now apply date_eqb_eq.
    + now apply String.eqb_eq.
  - intros (t & Hin & Hdate & Hdesc & Hamount).
    exists t. split.
    + apply get_transactions_In. split; [exact Hin|].
      now apply where_same_date.
    + rewrite Hamount, andb_true_r. apply andb_true_iff. split.
      * now apply String.eqb_eq.
      * now apply date_eqb_eq.
Qed.

Lemma merge_skips_recurring (rec : recurring A) (d : db A) :
  existsb (same_recurring rec) (get_recurring_transactions d) = true
  <-> duplicate_recurring rec d.
Proof.
  rewrite existsb_exists. unfold duplicate_recurring, same_recurring.
  split.
  - intros (r & Hin & Hsame). apply get_recurring_In in Hin as [Hin Hact].
    apply andb_true_iff in Hsame as [Hsame Hfreq].
    apply andb_true_iff in Hsame as [Hdesc Htype].
    exists r. repeat split; auto; now apply String.eqb_eq.
  - intros (r & Hin & Hact & Hdesc & Htype & Hfreq).
    exists r. split; [now apply get_recurring_In|].
    rewrite Hdesc, Htype, Hfreq. now rewrite !String.eqb_refl.
Qed.

Lemma import_recurring_transactions (merge : bool) (rec : recurring A)
    (d : db A) :
  transactions (import_recurring now merge rec d) = transactions d.
Proof. unfold import_recurring. now destruct (_ && _). Qed.

Lemma import_recurrings_transactions (merge : bool)
    (l : list (recurring A)) :
  forall d,
    transactions
      (fold_left (fun d rec => import_recurring now merge rec d) l d)
    = transactions d.
Proof.
  induction l as [|rec l IH]; intros d; simpl.
  - reflexivity.
  - now rewrite IH, import_recurring_transactions.
Qed.

Lemma import_transactions_all_skipped (l : list (transaction A)) :
  forall d,
    (forall trans, In trans l -> duplicate_transaction trans d) ->
    fold_left (fun d trans => import_transaction now true trans d) l d = d.
Proof.
  induction l as [|trans l IH]; intros d Hdup; simpl.
  - reflexivity.
  - assert (Hskip : import_transaction now true trans d = d).
    { unfold import_transaction.
      rewrite (proj2 (merge_skips_transaction trans d)); [reflexivity|].
      apply Hdup. now left. }
    rewrite Hskip. apply IH. intros t Ht. apply Hdup. now right.
Qed.

(** C3 (as amended): in a merge, an incoming transaction is skipped
    exactly when a stored transaction has its date, its description and
    its amount (the category is not compared); otherwise it is inserted.
    Merging a snapshot whose transactions all have such a stored
    counterpart leaves the transactions of the store as they are. *)
Theorem merge_transaction_key (trans : transaction A) (data : snapshot A)
    (d : db A) :
  (duplicate_transaction trans d ->
   import_transaction now true trans d = d) /\
  (~ duplicate_transaction trans d ->
   transactions (import_transaction now true trans d)
   = (transactions d
      ++ [mktransaction (transactions_seq d + 1) (t_date trans)
            (t_description trans) (t_category trans) (t_amount trans)
            (t_type trans) (t_person trans) now])%list) /\
  ((forall t, In t (snap_transactions data) -> duplicate_transaction t d) ->
   transactions (fst (import_data now data true d)) = transactions d).
Proof.
  split; [|split].
  - intros Hdup. unfold import_transaction.
    now rewrite (proj2 (merge_skips_transaction trans d) Hdup).
  - intros Hnew. unfold import_transaction.
    destruct (existsb _ _) eqn:E; [|reflexivity].
    exfalso. apply Hnew. now apply merge_skips_transaction.
  - intros Hall. unfold import_data. simpl fst.
    rewrite import_recurrings_transactions.
    now rewrite import_transactions_all_skipped.
Qed.

(** C7 (as amended): in a merge, an incoming rule is skipped exactly when
    a listed (active) rule has its description, its type and its
    frequency; otherwise it is inserted with its template fields, its
    frequency, its start date and its end date, under a new id, active,
    and with no [last_processed]: the marker of the snapshot is not
    carried over. *)
Theorem merge_recurring_key (rec : recurring A) (d : db A) :
  (duplicate_recurring rec d -> import_recurring now true rec d = d) /\
  (~ duplicate_recurring rec d ->
   recurring_transactions (import_recurring now true rec d)
   = (recurring_transactions d
      ++ [mkrecurring (recurring_seq d + 1) (r_description rec)
            (r_category rec) (r_amount rec) (r_type rec) (r_person rec)
            (r_frequency rec) (r_start_date rec) (r_end_date rec) None 1
            now])%list /\
   transactions (import_recurring now true rec d) = transactions d).
Proof.
  split.
  - intros Hdup. unfold import_recurring.
    now rewrite (proj2 (merge_skips_recurring rec d) Hdup).
  - intros Hnew. unfold import_recurring.
    destruct (existsb _ _) eqn:E; [|split; reflexivity].
    exfalso. apply Hnew. now apply merge_skips_recurring.
Qed.
End ImportFacts.

(** C3 (as stated, refuted): [lunch_12] has the date, the category and the
    description of the stored [lunch] and is inserted all the same, its
    amount being another; [lunch_dining] is skipped although no stored
    transaction has its category. *)
Lemma merge_compares_amount_not_category :
  let now := "2024-02-01 10:00:00" in
  (t_date Sample.lunch_12 = t_date Sample.lunch /\
   t_category Sample.lunch_12 = t_category Sample.lunch /\
   t_description Sample.lunch_12 = t_description Sample.lunch) /\
  List.length (transactions Sample.lunch_only) = 1%nat /\
  List.length
    (transactions
       (fst (import_data now (mksnapshot [Sample.lunch_12] [] now "1.0") true
               Sample.lunch_only))) = 2%nat /\
  (forall t, In t (transactions Sample.lunch_only) ->
             t_category t <> t_category Sample.lunch_dining) /\
  fst (import_data now (mksnapshot [Sample.lunch_dining] [] now "1.0") true
         Sample.lunch_only) = Sample.lunch_only.
Proof.
  simpl. repeat split.
  intros t [<-|[]]. discriminate.
Qed.

(** The two incoming lunches, one by one and as a snapshot. *)
Lemma merge_transaction_key_witness :
  let now := "2024-02-01 10:00:00" in
  import_transaction now true Sample.lunch_dining Sample.lunch_only
  = Sample.lunch_only /\
  List.length
    (transactions (import_transaction now true Sample.lunch_12
                     Sample.lunch_only)) = 2%nat /\
  transactions
    (fst (import_data now (mksnapshot [Sample.lunch_dining] [] now "1.0") true
            Sample.lunch_only))
  = transactions Sample.lunch_only.
Proof.
  intros now.
  assert (Hdup : duplicate_transaction Sample.lunch_dining Sample.lunch_only).
  { exists Sample.lunch. repeat split. simpl. now left. }
  assert (Hnew : ~ duplicate_transaction Sample.lunch_12 Sample.lunch_only).
  { intros (t & [<-|[]] & _ & _ & Hamount). discriminate Hamount. }
  split; [|split].
  - exact (proj1 (merge_transaction_key now Sample.lunch_dining
                    (mksnapshot [] [] now "1.0") Sample.lunch_only) Hdup).
  - rewrite (proj1 (proj2 (merge_transaction_key now Sample.lunch_12
                             (mksnapshot [] [] now "1.0") Sample.lunch_only))
               Hnew).
    reflexivity.
  - apply (proj2 (proj2 (merge_transaction_key now Sample.lunch_dining
                           (mksnapshot [Sample.lunch_dining] [] now "1.0")
                           Sample.lunch_only))).
    intros t [<-|[]]. exact Hdup.
Defined.

(** C7 (as stated, refuted): the rule [news_fired] carries the marker
    7 January; merged into a store without rules it is inserted without
    it. *)
Lemma merge_drops_last_processed :
  let now := "2024-02-01 10:00:00" in
  r_last_processed Sample.news_fired = Some (mkdate 2024 1 7) /\
  map r_last_processed
    (recurring_transactions
       (fst (import_data now (mksnapshot [] [Sample.news_fired] now "1.0")
               true Sample.lunch_only)))
  = [None] /\
  map r_end_date
    (recurring_transactions
       (fst (import_data now (mksnapshot [] [Sample.news_fired] now "1.0")
               true Sample.lunch_only)))
  = [r_end_date Sample.news_fired].
Proof. repeat split. Qed.

(** The rule [news_fired] merged into a store that lists [news], and into
    one without rules. *)
Lemma merge_recurring_key_witness :
  let now := "2024-02-01 10:00:00" in
  import_recurring now true Sample.news_fired Sample.news_only
  = Sample.news_only /\
  recurring_transactions
    (import_recurring now true Sample.news_fired Sample.lunch_only)
  = [mkrecurring 1 "News" "Housing" 500 "Expense" "Both" "weekly"
       (mkdate 2024 1 1) None None 1 now].
Proof.
  intros now. split.
  - apply (proj1 (merge_recurring_key now Sample.news_fired Sample.news_only)).
    exists Sample.news. repeat split. simpl. now left.
  - apply (proj2 (merge_recurring_key now Sample.news_fired
                    Sample.lunch_only)).
    intros (r & [] & _).
Defined.

(** ** Export, then import in replace mode *)

Section RoundTrip.
Context {A : Type} `{Number A}.
Variable now : string.

Lemma filter_where_none (l : list (transaction A)) :
  filter (where_clause None) l = l.
Proof.
  induction l as [|t l IH]; simpl; [reflexivity|now rewrite IH].
Qed.

(** Inserting a list of rows: the rows are appended with their supplied
    columns, new ids and the time of the import. *)
Lemma import_transactions_replace (l : list (transaction A)) :
  forall d, exists new,
    let d' := fold_left
                (fun d trans => import_transaction now false trans d) l d in
    transactions d' = (transactions d ++ new)%list /\
    map transaction_fields new = map transaction_fields l /\
    Forall (fun t => t_created_at t = now /\ transactions_seq d < t_id t)
           new /\
    recurring_transactions d' = recurring_transactions d /\
    recurring_seq d' = recurring_seq d.
Proof.
  induction l as [|trans l IH]; intros d.
  - exists []. simpl. rewrite app_nil_r. repeat split. constructor.
  - simpl fold_left.
    destruct (IH (import_transaction now false trans d))
      as (new & Ht & Hf & Hall & Hr & Hs).
    eexists (_ :: new). simpl. rewrite Ht, Hr, Hs. simpl.
    rewrite <- app_assoc. split; [reflexivity|].
    rewrite Hf. repeat split.
    constructor; simpl.
    + split; [reflexivity|lia].
    + eapply Forall_impl; [|exact Hall]. simpl. intros t [? ?].
      split; [assumption|lia].
Qed.

Lemma import_recurrings_replace (l : list (recurring A)) :
  forall d, exists new,
    let d' := fold_left
                (fun d rec => import_recurring now false rec d) l d in
    recurring_transactions d' = (recurring_transactions d ++ new)%list /\
    map recurring_fields new = map recurring_fields l /\
    Forall (fun r => r_last_processed r = None /\ r_active r = 1 /\
                     r_created_at r = now /\ recurring_seq d < r_id r)
           new.
Proof.
  induction l as [|rec l IH]; intros d.
  - exists []. simpl. rewrite app_nil_r. repeat split. constructor.
  - simpl fold_left.
    destruct (IH (import_recurring now false rec d))
      as (new & Ht & Hf & Hall).
    eexists (_ :: new). simpl. rewrite Ht. simpl.
    rewrite <- app_assoc. split; [reflexivity|].
    rewrite Hf. repeat split.
    constructor; simpl.
    + repeat split. lia.
    + eapply Forall_impl; [|exact Hall]. simpl. intros r (? & ? & ? & ?).
      repeat split; try assumption. lia.
Qed.

(** C5 (as amended): export followed by a replacing import gives back the
    supplied columns of every transaction (date, description, category,
    amount, type, person) and of every active rule (description,
    category, amount, type, person, frequency, start date, end date), in
    the order of the export.  Ids are new, [created_at] is the time of
    the import, every rule comes back active and without
    [last_processed]; rules that were not active are gone. *)
Theorem export_import_replace (isonow : string) (d : db A) :
  let d' := fst (import_data now (export_data isonow d) false d) in
  snd (import_data now (export_data isonow d) false d) = true /\
  map transaction_fields (transactions d')
  = map transaction_fields (get_transactions None d) /\
  Permutation (map transaction_fields (transactions d'))
              (map transaction_fields (transactions d)) /\
  Forall (fun t => t_created_at t = now /\ transactions_seq d < t_id t)
         (transactions d') /\
  map recurring_fields (recurring_transactions d')
  = map recurring_fields (get_recurring_transactions d) /\
  Forall (fun r => r_last_processed r = None /\ r_active r = 1 /\
                   r_created_at r = now /\ recurring_seq d < r_id r)
         (recurring_transactions d').
Proof.
  unfold import_data, export_data. simpl.
  destruct (import_transactions_replace (get_transactions None d)
              (clear_existing_data d)) as (newt & Ht & Hft & Hallt & Hr & Hs).
  set (d1 := fold_left _ (get_transactions None d) _) in *.
  destruct (import_recurrings_replace (get_recurring_transactions d) d1)
    as (newr & Hrr & Hfr & Hallr).
  simpl in *. rewrite import_recurrings_transactions, Ht, Hrr, Hr. simpl.
  split; [reflexivity|]. split; [exact Hft|]. split; [|split; [|split]].
  - rewrite Hft. apply Permutation_map. unfold get_transactions.
    rewrite filter_where_none. apply sort_perm.
  - exact Hallt.
  - exact Hfr.
  - eapply Forall_impl; [|exact Hallr]. simpl. intros r (? & ? & ? & ?).
    repeat split; try assumption. lia.
Qed.
End RoundTrip.

(** C5 (as stated, refuted): the ledger with the entry [lunch] and the rule
    [news], fired on 7 January, comes back from an export and a replacing
    import with other ids, another [created_at] and no marker. *)
Lemma export_import_changes_rows :
  let now := "2024-02-01 10:00:00" in
  let d' := fst (import_data now (export_data now Sample.ledger) false
                   Sample.ledger) in
  transactions Sample.ledger
  = [mktransaction 1 (mkdate 2024 1 1) "Lunch" "Food" 10 "Expense" "Both"
       "2024-01-01 09:00:00"] /\
  transactions d'
  = [mktransaction 2 (mkdate 2024 1 1) "Lunch" "Food" 10 "Expense" "Both"
       now] /\
  map r_id (recurring_transactions Sample.ledger) = [1] /\
  map r_last_processed (recurring_transactions Sample.ledger)
  = [Some (mkdate 2024 1 7)] /\
  map r_id (recurring_transactions d') = [2] /\
  map r_last_processed (recurring_transactions d') = [None] /\
  transactions d' <> transactions Sample.ledger /\
  recurring_transactions d' <> recurring_transactions Sample.ledger.
Proof.
  simpl. repeat split; discriminate.
Qed.

(** ** Queries *)

Section Query.
Context {A : Type} `{Number A}.

Lemma date_condition (o : option date) (c : date -> transaction A -> bool)
    (t : transaction A) :
  forallb (fun k => k t)
    (match o with Some p => [c p] | None => [] end) = true
  <-> (forall p, o = Some p -> c p t = true).
Proof.
  destruct o as [p|]; simpl.
  - rewrite andb_true_r. split.
    + intros Hc q [= <-]. exact Hc.
    + intros Hc. now apply Hc.
  - split; [discriminate|reflexivity].
Qed.

Lemma text_condition (o : option string) (col : transaction A -> string)
    (t : transaction A) :
  forallb (fun k => k t)
    (if truthy o then
       match o with
       | Some p => [fun t => String.eqb (col t) p]
       | None => []
       end
     else []) = true
  <-> (forall p, o = Some p -> p <> "" -> col t = p).
Proof.
  destruct o as [p|]; simpl.
  - destruct (String.eqb_spec p "") as [->|Hp]; simpl.
    + split; [|reflexivity]. intros _ q [= <-] Hq. now destruct Hq.
    + rewrite andb_true_r, String.eqb_eq. split.
      * intros Hc q [= <-] _. exact Hc.
      * intros Hc. now apply Hc.
  - split; [discriminate|reflexivity].
Qed.

Lemma where_clause_satisfies (f : filters) (t : transaction A) :
  where_clause (Some f) t = true <-> satisfies f t.
Proof.
  unfold where_clause, conditions, satisfies.
  rewrite !forallb_app, !andb_true_iff.
  rewrite (date_condition (f_start_date f)
             (fun p t => date_leb p (t_date t))).
  rewrite (date_condition (f_end_date f)
             (fun p t => date_leb (t_date t) p)).
  rewrite (text_condition (f_category f) t_category).
  rewrite (text_condition (f_person f) t_person).
  rewrite (text_condition (f_type f) t_type).
  reflexivity.
Qed.

Lemma order_by_yes (a b : transaction A) :
  order_by_date_desc_id_desc a b = true -> date_desc_id_desc a b.
Proof.
  unfold order_by_date_desc_id_desc, date_desc_id_desc.
  destruct (date_compare (t_date a) (t_date b)) eqn:E.
  - intros Hid. right. split; [now apply date_compare_eq|lia].
  - discriminate.
  - now left.
Qed.

Lemma order_by_no (a b : transaction A) :
  order_by_date_desc_id_desc a b = false -> date_desc_id_desc b a.
Proof.
  unfold order_by_date_desc_id_desc, date_desc_id_desc.
  rewrite (date_compare_antisym (t_date a) (t_date b)).
  destruct (date_compare (t_date a) (t_date b)) eqn:E; simpl.
  - intros Hid. right. split; [symmetry; now apply date_compare_eq|lia].
  - now left.
  - discriminate.
Qed.

Lemma date_desc_id_desc_trans (a b c : transaction A) :
  date_desc_id_desc a b -> date_desc_id_desc b c -> date_desc_id_desc a c.
Proof.
  unfold date_desc_id_desc.
  intros [Hab|[Hab Hi]] [Hbc|[Hbc Hj]].
  - left. eapply date_compare_gt_trans; eassumption.
  - left. now rewrite <- Hbc.
  - left. now rewrite Hab.
  - right. split; [congruence|lia].
Qed.

(** C8 (as amended): a query returns the stored transactions that meet
    every predicate given with a value that Python counts as true, and
    only those, each as often as it is stored, by date descending and,
    within a date, by id descending.  A predicate absent from the
    filter, or given with an empty text, is not applied. *)
Theorem query_filter_and_order (f : option filters) (d : db A) :
  let res := get_transactions f d in
  let meets t := match f with None => True | Some f => satisfies f t end in
  (forall t, In t res <-> In t (transactions d) /\ meets t) /\
  (exists p, (forall t, p t = true <-> meets t) /\
             Permutation res (filter p (transactions d))) /\
  StronglySorted date_desc_id_desc res.
Proof.
  intros res meets.
  assert (Hw : forall t, where_clause f t = true <-> meets t).
  { intros t. unfold meets. destruct f as [f|].
    - apply where_clause_satisfies.
    - simpl. tauto. }
  split; [|split].
  - intros t. unfold res. rewrite get_transactions_In, Hw. reflexivity.
  - exists (where_clause f). split; [exact Hw|]. apply sort_perm.
  - apply sort_sorted.
    + apply order_by_yes.
    + apply order_by_no.
    + apply date_desc_id_desc_trans.
Qed.
End Query.

(** C8 (as stated, refuted): asked for the category with the empty name,
    the query returns the entry [lunch], whose category is ["Food"]. *)
Lemma query_ignores_empty_category :
  let f := mkfilters None None (Some "") None None in
  get_transactions (Some f) Sample.lunch_only = [Sample.lunch] /\
  f_category f = Some "" /\
  t_category Sample.lunch = "Food" /\
  ~ (forall t, In t (get_transactions (Some f) Sample.lunch_only) ->
               t_category t = "").
Proof.
  simpl. repeat split. intros Hall.
  specialize (Hall Sample.lunch (or_introl eq_refl)). discriminate Hall.
Qed.

(** ** The running balance *)

Section Balance.
Context {A : Type} `{Number A}.

Lemma seq_succ (a n : nat) : seq (S a) n = map S (seq a n).
Proof. symmetry. apply seq_shift. Qed.

(** The loop appends, for each row, its date and the balance so far. *)
Lemma balance_loop_spec (l : list (transaction A)) :
  Forall (fun t => valid_date (t_date t) = true) l ->
  forall acc dates balances,
    balance_loop l acc dates balances =
    Ok ((dates ++ map t_date l)%list,
        (balances ++
         map (fun k =>
                fold_left (fun acc t => num_add acc (signed_amount t))
                          (firstn k l) acc)
             (seq 1 (List.length l)))%list).
Proof.
  induction 1 as [|t l Ht _ IH]; intros acc dates balances.
  - simpl. now rewrite !app_nil_r.
  - simpl balance_loop. unfold strptime. rewrite Ht. simpl bind.
    rewrite IH. simpl List.length.
    change (seq 1 (S (List.length l))) with (1%nat :: seq 2 (List.length l)).
    rewrite (seq_succ 1). simpl map. rewrite map_map.
    rewrite <- !app_assoc. reflexivity.
Qed.

Lemma sort_by_date_stable (l : list (transaction A)) (d : date) :
  filter (fun t => date_eqb (t_date t) d)
         (sort (fun x y => date_leb (t_date x) (t_date y)) l)
  = filter (fun t => date_eqb (t_date t) d) l.
Proof.
  induction l as [|x l IH]; simpl; [reflexivity|].
  rewrite insert_filter.
  - simpl. now rewrite IH.
  - intros Hx y Hy. apply date_eqb_eq in Hx.
    apply date_leb_false in Hy as [_ Hne].
    apply not_true_is_false. intros Hd. apply date_eqb_eq in Hd.
    congruence.
Qed.

Lemma sort_by_date_sorted (l : list (transaction A)) :
  StronglySorted (fun a b => date_leb (t_date a) (t_date b) = true)
    (sort (fun x y => date_leb (t_date x) (t_date y)) l).
Proof.
  apply sort_sorted.
  - auto.
  - intros x y Hxy. now apply date_leb_false in Hxy as [Hyx _].
  - intros x y z. apply date_leb_trans.
Qed.

Lemma running_balance_sorted (l : list (transaction A)) :
  Forall (fun t => valid_date (t_date t) = true) l ->
  exists s,
    running_balance l = Ok (combine (map t_date s) (cumulative_sums s)) /\
    List.length (combine (map t_date s) (cumulative_sums s))
    = List.length l /\
    Permutation s l /\
    StronglySorted (fun a b => date_leb (t_date a) (t_date b) = true) s /\
    (forall d, filter (fun t => date_eqb (t_date t) d) s
               = filter (fun t => date_eqb (t_date t) d) l).
Proof.
  intros Hv.
  exists (sort (fun x y => date_leb (t_date x) (t_date y)) l).
  split; [|split; [|split; [|split]]].
  - unfold running_balance. rewrite balance_loop_spec.
    + reflexivity.
    + rewrite Forall_forall in *. intros t Ht. apply Hv.
      now apply sort_In in Ht.
  - unfold cumulative_sums.
    rewrite length_combine, !length_map, length_seq, sort_length.
    apply Nat.min_id.
  - apply sort_perm.
  - apply sort_by_date_sorted.
  - apply sort_by_date_stable.
Qed.
End Balance.

(** The example of the design document in binary64 arithmetic, the
    arithmetic of the REAL column. *)
Example running_balance_binary64 :
  forall id1 id2 desc1 desc2 cat1 cat2 who1 who2 at1 at2,
    running_balance
      [mktransaction id1 (mkdate 2024 1 1) desc1 cat1 100%float "Income"
         who1 at1;
       mktransaction id2 (mkdate 2024 1 2) desc2 cat2 40%float "Expense"
         who2 at2]
    = Ok [(mkdate 2024 1 1, 100%float); (mkdate 2024 1 2, 60%float)].
Proof. intros. reflexivity. Qed.

(** C9: the running balance of no transactions is empty; the income of
    100 on 1 January 2024 and the expense of 40 on 2 January give the
    points (1 January, 100) and (2 January, 60), in whichever order the
    two rows come; and for any transactions with calendar dates the
    points are, row by row, the date and the signed sum up to that row
    of the rows sorted by date, rows of one date in their original
    order. *)
Theorem running_balance_points :
  (forall A (N : Number A), @running_balance A N [] = Ok []) /\
  (forall id1 id2 desc1 desc2 cat1 cat2 who1 who2 at1 at2,
     let t1 := mktransaction id1 (mkdate 2024 1 1) desc1 cat1 100
                 "Income" who1 at1 in
     let t2 := mktransaction id2 (mkdate 2024 1 2) desc2 cat2 40
                 "Expense" who2 at2 in
     running_balance [t1; t2]
     = Ok [(mkdate 2024 1 1, 100); (mkdate 2024 1 2, 60)] /\
     running_balance [t2; t1]
     = Ok [(mkdate 2024 1 1, 100); (mkdate 2024 1 2, 60)]) /\
  (forall A (N : Number A) (l : list (transaction A)),
     Forall (fun t => valid_date (t_date t) = true) l ->
     exists s,
       running_balance l = Ok (combine (map t_date s) (cumulative_sums s)) /\
       List.length (combine (map t_date s) (cumulative_sums s))
       = List.length l /\
       Permutation s l /\
       StronglySorted (fun a b => date_leb (t_date a) (t_date b) = true) s /\
       (forall d, filter (fun t => date_eqb (t_date t) d) s
                  = filter (fun t => date_eqb (t_date t) d) l)).
Proof.
  split; [reflexivity|]. split.
  - intros. split; reflexivity.
  - intros A N l. apply running_balance_sorted.
Qed.

(** Three rows, two of them on one day. *)
Lemma running_balance_points_witness :
  let l := [Sample.entry 3 (mkdate 2024 1 5) "Pay" "Salary" 100 "Income";
            Sample.entry 2 (mkdate 2024 1 1) "Bus" "Travel" 3 "Expense";
            Sample.lunch] in
  Forall (fun t => valid_date (t_date t) = true) l /\
  exists s,
    running_balance l = Ok (combine (map t_date s) (cumulative_sums s)) /\
    List.length (combine (map t_date s) (cumulative_sums s))
    = List.length l /\
    Permutation s l /\
    StronglySorted (fun a b => date_leb (t_date a) (t_date b) = true) s /\
    (forall d, filter (fun t => date_eqb (t_date t) d) s
               = filter (fun t => date_eqb (t_date t) d) l).
Proof.
  intros l.
  assert (Hv : Forall (fun t => valid_date (t_date t) = true) l)
    by (repeat constructor).
  split; [exact Hv|].
  exact (proj2 (proj2 running_balance_points) Z Z_Number l Hv).
Defined.


(** * More properties *)

(** ** The order of days and their ordinals *)

Lemma days_before_year_step (y : Z) :
  days_before_year (y + 1)
  = days_before_year y + 365 + (if is_leap y then 1 else 0).
Proof.
  unfold days_before_year, is_leap.
  replace (y + 1 - 1) with y by lia.
  repeat match goal with
         | |- context [?x =? 0] => destruct (Z.eqb_spec x 0)
         end; simpl; Z.div_mod_to_equations; lia.
Qed.

Lemma days_before_year_mono (y : Z) (n : nat) :
  days_before_year y + 365 * Z.of_nat n <= days_before_year (y + Z.of_nat n).
Proof.
  induction n as [|n IH].
  - simpl. replace (y + 0) with y by lia. lia.
  - replace (y + Z.of_nat (S n)) with (y + Z.of_nat n + 1) by lia.
    rewrite days_before_year_step. destruct (is_leap _); lia.
Qed.

Lemma days_before_year_le (y y' : Z) :
  y <= y' -> days_before_year y <= days_before_year y'.
Proof.
  intros Hy. pose proof (days_before_year_mono y (Z.to_nat (y' - y))) as Hm.
  replace (y + Z.of_nat (Z.to_nat (y' - y))) with y' in Hm by lia. lia.
Qed.

Ltac month_cases m :=
  let H := fresh "Hmonth" in
  assert (m = 1 \/ m = 2 \/ m = 3 \/ m = 4 \/ m = 5 \/ m = 6 \/ m = 7 \/
          m = 8 \/ m = 9 \/ m = 10 \/ m = 11 \/ m = 12) as H by lia;
  repeat (destruct H as [H|H]; [subst m|]); [..|subst m].

(** The place of a day within its year. *)
Lemma day_of_year_range (y m dd : Z) :
  1 <= m <= 12 -> 1 <= dd <= days_in_month y m ->
  1 <= days_before_month y m + dd <= 365 + (if is_leap y then 1 else 0).
Proof.
  intros Hm. unfold days_before_month, days_in_month.
  destruct (is_leap y); intros Hd; month_cases m; cbn -[Z.add] in *; lia.
Qed.

Lemma day_of_year_lt (y m m' dd dd' : Z) :
  1 <= m <= 12 -> 1 <= m' <= 12 ->
  1 <= dd <= days_in_month y m -> 1 <= dd' <= days_in_month y m' ->
  m < m' ->
  days_before_month y m + dd < days_before_month y m' + dd'.
Proof.
  intros Hm Hm'. unfold days_before_month, days_in_month.
  destruct (is_leap y); intros Hd Hd' Hlt; month_cases m; month_cases m';
    cbn -[Z.add] in *; lia.
Qed.

Lemma toordinal_lt (a b : date) :
  valid_date a = true -> valid_date b = true ->
  date_compare a b = Lt -> toordinal a < toordinal b.
Proof.
  intros Ha Hb Hc.
  apply valid_date_bounds in Ha as (Hya & Hma & Hda).
  apply valid_date_bounds in Hb as (Hyb & Hmb & Hdb).
  pose proof (day_of_year_range _ _ _ Hma Hda) as Ra.
  pose proof (day_of_year_range _ _ _ Hmb Hdb) as Rb.
  unfold toordinal. revert Hc. unfold date_compare.
  destruct (Z.compare_spec (year a) (year b)) as [Hy|Hy|Hy];
    [|intros _|discriminate].
  - rewrite Hy in *.
    destruct (Z.compare_spec (month a) (month b)) as [Hm|Hm|Hm];
      [|intros _|discriminate].
    + rewrite Hm in *. intros Hc. apply -> Z.compare_lt_iff in Hc. lia.
    + pose proof (day_of_year_lt (year b) _ _ _ _ Hma Hmb Hda Hdb Hm). lia.
  - pose proof (days_before_year_step (year a)) as Hs.
    pose proof (days_before_year_le (year a + 1) (year b)) as Hle.
    destruct (is_leap (year a)); lia.
Qed.

Lemma date_compare_cases (a b : date) :
  date_compare a b = Lt \/ a = b \/ date_compare b a = Lt.
Proof.
  destruct (date_compare a b) eqn:E.
  - right. left. now apply date_compare_eq.
  - now left.
  - right. right. rewrite date_compare_antisym, E. reflexivity.
Qed.

Lemma toordinal_inj (a b : date) :
  valid_date a = true -> valid_date b = true ->
  toordinal a = toordinal b -> a = b.
Proof.
  intros Ha Hb Ho.
  destruct (date_compare_cases a b) as [Hc|[Hc|Hc]]; [|exact Hc|].
  - pose proof (toordinal_lt a b Ha Hb Hc). lia.
  - pose proof (toordinal_lt b a Hb Ha Hc). lia.
Qed.

Lemma date_leb_toordinal (a b : date) :
  valid_date a = true -> valid_date b = true ->
  date_leb a b = true <-> toordinal a <= toordinal b.
Proof.
  intros Ha Hb. unfold date_leb.
  destruct (date_compare_cases a b) as [Hc|[Hc|Hc]].
  - rewrite Hc. pose proof (toordinal_lt a b Ha Hb Hc). split; [lia|reflexivity].
  - subst b. rewrite date_compare_refl. split; [lia|reflexivity].
  - pose proof (toordinal_lt b a Hb Ha Hc).
    rewrite date_compare_antisym, Hc. simpl. split; [discriminate|lia].
Qed.

Lemma toordinal_range (d : date) :
  valid_date d = true -> 1 <= toordinal d <= MAXORDINAL.
Proof.
  intros Hv.
  assert (Hmin : valid_date (mkdate 1 1 1) = true) by reflexivity.
  assert (Hmax : valid_date (mkdate 9999 12 31) = true) by reflexivity.
  pose proof (proj1 (date_leb_toordinal (mkdate 1 1 1) d Hmin Hv)) as Hlo.
  pose proof (proj1 (date_leb_toordinal d (mkdate 9999 12 31) Hv Hmax)) as Hhi.
  change (toordinal (mkdate 1 1 1)) with 1 in Hlo.
  change (toordinal (mkdate 9999 12 31)) with MAXORDINAL in Hhi.
  apply valid_date_bounds in Hv as (Hy & Hm & Hd).
  unfold MINYEAR, MAXYEAR in Hy.
  pose proof (day_of_year_range _ _ _ Hm Hd) as Hr.
  split; [apply Hlo|apply Hhi]; unfold date_leb, date_compare;
    cbn [year month day].
  - destruct (Z.compare_spec 1 (year d)); try reflexivity; try lia.
    destruct (Z.compare_spec 1 (month d)); try reflexivity; try lia.
    destruct (Z.compare_spec 1 (day d)); try reflexivity; lia.
  - unfold days_in_month in Hd.
    destruct (Z.compare_spec (year d) 9999); try reflexivity; try lia.
    destruct (Z.compare_spec (month d) 12) as [E| |];
      try reflexivity; try lia.
    rewrite E in Hd. cbn -[Z.add] in Hd.
    destruct (Z.compare_spec (day d) 31); try reflexivity; lia.
Qed.

Lemma fromordinal_toordinal (d : date) :
  valid_date d = true -> fromordinal (toordinal d) = d.
Proof.
  intros Hv. pose proof (toordinal_range d Hv) as Hr.
  destruct (fromordinal_spec (toordinal d) Hr) as [Hv' Ho].
  now apply toordinal_inj.
Qed.


(** ** The advance of a date, continued *)

Lemma toordinal_later (d d' : date) :
  valid_date d = true -> valid_date d' = true ->
  toordinal d < toordinal d' -> date_compare d d' = Lt.
Proof.
  intros Hv Hv' Ho.
  destruct (date_compare_cases d d') as [Hc|[Hc|Hc]]; [exact Hc| |].
  - subst d'. lia.
  - pose proof (toordinal_lt d' d Hv' Hv Hc). lia.
Qed.

Lemma next_due_later (d d' : date) (frequency : string) :
  valid_date d = true ->
  _calculate_next_due_date d frequency = Ok d' ->
  valid_date d' = true /\ date_compare d d' = Lt.
Proof.
  intros Hv. unfold _calculate_next_due_date.
  assert (Hdays : forall n, 0 < n -> add_days d n = Ok d' ->
                    valid_date d' = true /\ date_compare d d' = Lt).
  { intros n Hn Ha. apply add_days_spec in Ha as [Hv' Ho].
    split; [exact Hv'|]. apply toordinal_later; auto. lia. }
  assert (Hrep : forall y m, (year d < y \/ (year d = y /\ month d < m)) ->
                   replace d y m = Ok d' ->
                   valid_date d' = true /\ date_compare d d' = Lt).
  { intros y m Hym Hr. apply replace_spec in Hr as [Hv' ->].
    split; [exact Hv'|]. unfold date_compare. cbn [year month day].
    destruct Hym as [Hy|[Hy Hm]].
    - now rewrite (proj2 (Z.compare_lt_iff _ _) Hy).
    - rewrite Hy, Z.compare_refl.
      now rewrite (proj2 (Z.compare_lt_iff _ _) Hm). }
  repeat match goal with
         | |- context [if String.eqb ?a ?b then _ else _] =>
             destruct (String.eqb a b)
         end; try (apply Hdays; lia).
  - destruct (Z.eqb_spec (month d) 12); apply Hrep; lia.
  - apply Hrep. lia.
Qed.

(** X1: whatever the frequency, a date that one advance or several in a
    row return for a calendar day is a calendar day and a later one. *)
Theorem advance_later (n : nat) (d d' : date) (frequency : string) :
  valid_date d = true ->
  advance_times (S n) frequency d = Ok d' ->
  valid_date d' = true /\ date_compare d d' = Lt.
Proof.
  revert d. induction n as [|n IH]; intros d Hv Ha.
  - simpl in Ha.
    destruct (_calculate_next_due_date d frequency) as [d1|e] eqn:E;
      simpl in Ha; [|discriminate].
    injection Ha as ->. now apply next_due_later with frequency.
  - change (advance_times (S (S n)) frequency d)
      with (d1 <- _calculate_next_due_date d frequency ;;
            advance_times (S n) frequency d1) in Ha.
    destruct (_calculate_next_due_date d frequency) as [d1|e] eqn:E;
      simpl bind in Ha; [|discriminate].
    apply next_due_later in E as [Hv1 Hlt]; [|exact Hv].
    destruct (IH d1 Hv1 Ha) as [Hv' Hlt']. split; [exact Hv'|].
    rewrite date_compare_antisym in Hlt, Hlt'.
    rewrite date_compare_antisym.
    destruct (date_compare d1 d) eqn:E1; try discriminate.
    destruct (date_compare d' d1) eqn:E2; try discriminate.
    now rewrite (date_compare_gt_trans _ _ _ E2 E1).
Qed.

Lemma advance_later_witness :
  valid_date (mkdate 2024 4 29) = true /\
  date_compare (mkdate 2024 2 29) (mkdate 2024 4 29) = Lt.
Proof.
  apply (advance_later 1 (mkdate 2024 2 29) (mkdate 2024 4 29) "monthly");
    reflexivity.
Defined.

Lemma toordinal_before_last_year (d : date) :
  valid_date d = true -> year d < MAXYEAR ->
  toordinal d <= MAXORDINAL - 365.
Proof.
  intros Hv Hy. apply valid_date_bounds in Hv as (_ & Hm & Hd).
  pose proof (day_of_year_range _ _ _ Hm Hd) as Hr.
  pose proof (days_before_year_step (year d)) as Hs.
  pose proof (days_before_year_le (year d + 1) 9999) as Hle.
  unfold MAXYEAR in Hy. change (days_before_year 9999) with 3651694 in Hle.
  unfold toordinal, MAXORDINAL. destruct (is_leap (year d)); lia.
Qed.

Lemma is_leap_next (y : Z) : is_leap y = true -> is_leap (y + 1) = false.
Proof.
  unfold is_leap. intros Hl. apply andb_true_iff in Hl as [Hl _].
  apply Z.eqb_eq in Hl.
  destruct (Z.eqb_spec ((y + 1) mod 4) 0) as [E|E]; [|reflexivity].
  exfalso. Z.div_mod_to_equations. lia.
Qed.

Lemma day_next_year (d : date) :
  valid_date d = true ->
  day d <= days_in_month (year d + 1) (month d)
  <-> ~ (month d = 2 /\ day d = 29).
Proof.
  intros Hv. apply valid_date_bounds in Hv as (_ & Hm & Hd).
  revert Hd. unfold days_in_month.
  destruct (Z.eqb_spec (month d) 2) as [E|E]; simpl andb.
  - rewrite E. destruct (is_leap (year d)) eqn:L.
    + rewrite (is_leap_next _ L). cbn. lia.
    + destruct (is_leap (year d + 1)); cbn; lia.
  - lia.
Qed.

(** X2: for a calendar day before the year 9999, the advance by a number
    of days (the frequencies daily, weekly, bi-weekly and every unknown
    one) always returns; the monthly advance returns exactly when the
    next month has the day, and the yearly advance exactly when the day
    is not 29 February. *)
Theorem advance_returns (d : date) (frequency : string) :
  valid_date d = true ->
  year d < MAXYEAR ->
  (frequency <> "monthly" -> frequency <> "yearly" ->
   exists d', _calculate_next_due_date d frequency = Ok d') /\
  ((exists d', _calculate_next_due_date d "monthly" = Ok d') <->
   day d <= days_in_month (if month d =? 12 then year d + 1 else year d)
                          (if month d =? 12 then 1 else month d + 1)) /\
  ((exists d', _calculate_next_due_date d "yearly" = Ok d') <->
   ~ (month d = 2 /\ day d = 29)).
Proof.
  intros Hv Hy. split; [|split].
  - intros Hm Hyr. unfold _calculate_next_due_date.
    pose proof (toordinal_before_last_year d Hv Hy) as Hhi.
    pose proof (toordinal_range d Hv) as Hlo.
    assert (Hdays : forall n, 0 < n <= 14 -> exists d', add_days d n = Ok d').
    { intros n Hn. unfold add_days.
      replace (0 <? toordinal d + n) with true
        by (symmetry; apply Z.ltb_lt; lia).
      replace (toordinal d + n <=? MAXORDINAL) with true
        by (symmetry; apply Z.leb_le; lia).
      simpl. eauto. }
    destruct (String.eqb_spec frequency "monthly"); [contradiction|].
    destruct (String.eqb_spec frequency "yearly"); [contradiction|].
    repeat match goal with
           | |- context [if String.eqb ?a ?b then _ else _] =>
               destruct (String.eqb a b)
           end; apply Hdays; lia.
  - rewrite (monthly_advance_result d Hv). cbv zeta.
    replace ((if month d =? 12 then year d + 1 else year d) <=? MAXYEAR)
      with true
      by (symmetry; apply Z.leb_le; unfold MAXYEAR in *;
          destruct (month d =? 12); lia).
    simpl andb.
    match goal with
    | |- context [day d <=? ?x] => destruct (Z.leb_spec (day d) x)
    end.
    + split; [auto|eauto].
    + split; [intros [d' Hd']; discriminate|lia].
  - rewrite (yearly_advance_result d Hv).
    replace (year d + 1 <=? MAXYEAR) with true
      by (symmetry; apply Z.leb_le; lia).
    simpl andb. rewrite <- (day_next_year d Hv).
    destruct (Z.leb_spec (day d) (days_in_month (year d + 1) (month d))).
    + split; [auto|eauto].
    + split; [intros [d' Hd']; discriminate|lia].
Qed.

Lemma advance_returns_witness :
  (exists d', _calculate_next_due_date (mkdate 2024 1 30) "fortnightly"
              = Ok d') /\
  ~ (exists d', _calculate_next_due_date (mkdate 2024 1 30) "monthly"
                = Ok d') /\
  (exists d', _calculate_next_due_date (mkdate 2024 1 30) "yearly" = Ok d').
Proof.
  destruct (advance_returns (mkdate 2024 1 30) "fortnightly")
    as (Hdays & Hmonth & Hyear); [reflexivity|reflexivity|].
  split; [|split].
  - apply Hdays; discriminate.
  - intros Hm. apply Hmonth in Hm. change (30 <= 29) in Hm. lia.
  - apply Hyear. simpl. intros [E _]. discriminate E.
Defined.

Lemma add_days_zero (d : date) : valid_date d = true -> add_days d 0 = Ok d.
Proof.
  intros Hv. pose proof (toordinal_range d Hv) as Hr. unfold add_days.
  rewrite Z.add_0_r.
  replace (0 <? toordinal d) with true by (symmetry; apply Z.ltb_lt; lia).
  replace (toordinal d <=? MAXORDINAL) with true
    by (symmetry; apply Z.leb_le; lia).
  simpl. now rewrite fromordinal_toordinal.
Qed.

Lemma add_days_add (d : date) (a b : Z) :
  valid_date d = true -> 0 <= a -> 0 <= b ->
  (d1 <- add_days d a ;; add_days d1 b) = add_days d (a + b).
Proof.
  intros Hv Ha Hb. pose proof (toordinal_range d Hv) as Hr.
  destruct (add_days d a) as [d1|e] eqn:E; simpl.
  - apply add_days_spec in E as [_ Ho]. unfold add_days.
    rewrite Ho, Z.add_assoc. reflexivity.
  - unfold add_days in *.
    destruct (Z.ltb_spec 0 (toordinal d + a)); [|lia].
    destruct (Z.leb_spec (toordinal d + a) MAXORDINAL); [discriminate|].
    injection E as <-.
    destruct (Z.leb_spec (toordinal d + (a + b)) MAXORDINAL); [lia|].
    now rewrite andb_false_r.
Qed.

(** Advancing [n] times by [k] days is advancing by [k * n] days. *)
Lemma advance_times_days (k : Z) (frequency : string) :
  0 < k ->
  (forall d, _calculate_next_due_date d frequency = add_days d k) ->
  forall n d, valid_date d = true ->
    advance_times n frequency d = add_days d (k * Z.of_nat n).
Proof.
  intros Hk Hf. induction n as [|n IH]; intros d Hv.
  - simpl. rewrite Z.mul_0_r. now rewrite add_days_zero.
  - cbn [advance_times]. rewrite Hf.
    replace (k * Z.of_nat (S n)) with (k + k * Z.of_nat n) by lia.
    rewrite <- add_days_add by (auto; lia).
    destruct (add_days d k) as [d1|e] eqn:E; simpl; [|reflexivity].
    apply IH. now apply add_days_spec in E.
Qed.

(** X3: [n] weekly advances of a calendar day are [7 * n] daily ones, and
    [n] bi-weekly advances are [2 * n] weekly ones, with the same outcome
    also when the calendar ends on the way. *)
Theorem weeks_are_days (n : nat) (d : date) :
  valid_date d = true ->
  advance_times n "weekly" d = advance_times (7 * n) "daily" d /\
  advance_times n "bi-weekly" d = advance_times (2 * n) "weekly" d.
Proof.
  intros Hv.
  rewrite (advance_times_days 7 "weekly") by (auto; lia).
  rewrite (advance_times_days 1 "daily") by (auto; lia).
  rewrite (advance_times_days 14 "bi-weekly") by (auto; lia).
  rewrite (advance_times_days 7 "weekly") by (auto; lia).
  split; f_equal; lia.
Qed.

Lemma weeks_are_days_witness :
  advance_times 2 "weekly" (mkdate 2024 2 25)
  = advance_times (7 * 2) "daily" (mkdate 2024 2 25) /\
  advance_times 2 "bi-weekly" (mkdate 2024 2 25)
  = advance_times (2 * 2) "weekly" (mkdate 2024 2 25).
Proof. apply weeks_are_days. reflexivity. Defined.


(** ** What a call of [process_recurring_transactions] changes *)

Section ProcessFrame.
Context {A : Type} `{Number A}.
Variables (today : date) (now : string).

Lemma rule_outcome_due (rec : recurring A) (next_due : date) :
  rule_outcome today rec = Ok (Some next_due) ->
  next_due_date rec = Ok next_due /\ date_leb next_due today = true.
Proof.
  unfold rule_outcome, due_within_end_date.
  destruct (next_due_date rec) as [nd|e]; simpl; [|discriminate].
  destruct (date_leb nd today) eqn:E.
  - destruct (r_end_date rec) as [end_date|]; simpl.
    + destruct (strptime end_date) as [end_dt|e]; simpl; [|discriminate].
      destruct (date_leb today end_dt); [|discriminate].
      intros [= <-]. auto.
    + intros [= <-]. auto.
  - discriminate.
Qed.

(** The rule table after the loop, whatever its outcome: every row is as
    it was, or has the marker that a rule of the list with its id was
    materialized with. *)
Lemma process_loop_changes (l : list (recurring A)) :
  forall n d d' res,
    process_loop today now l n d = (d', res) ->
    recurring_seq d' = recurring_seq d /\
    exists g,
      recurring_transactions d' = map g (recurring_transactions d) /\
      forall r,
        g r = r \/
        exists rec next_due,
          In rec l /\ r_id rec = r_id r /\
          rule_outcome today rec = Ok (Some next_due) /\
          g r = set_last_processed next_due r.
Proof.
  induction l as [|rec l IH]; intros n d d' res Hl.
  - simpl in Hl. injection Hl as <- _. split; [reflexivity|].
    exists (fun r => r). split; [now rewrite map_id|]. now left.
  - rewrite process_loop_cons in Hl.
    destruct (rule_outcome today rec) as [[next_due|]|e] eqn:Ho.
    + apply IH in Hl as (Hseq & g & Hg & Hpt). split; [exact Hseq|].
      exists (fun r => g (if r_id r =? r_id rec
                          then set_last_processed next_due r else r)).
      split.
      * rewrite Hg. simpl. now rewrite map_map.
      * intros r. destruct (Z.eqb_spec (r_id r) (r_id rec)) as [Hid|Hid].
        -- right.
           destruct (Hpt (set_last_processed next_due r))
             as [Hsame|(rec' & nd' & Hin & Hid' & Ho' & Hset)].
           ++ exists rec, next_due. rewrite Hsame.
              repeat split; simpl; auto.
           ++ exists rec', nd'. rewrite Hset.
              repeat split; simpl; auto.
        -- destruct (Hpt r) as [Hsame|(rec' & nd' & Hin & Hid' & Ho' & Hset)].
           ++ now left.
           ++ right. exists rec', nd'. repeat split; simpl; auto.
    + apply IH in Hl as (Hseq & g & Hg & Hpt). split; [exact Hseq|].
      exists g. split; [exact Hg|].
      intros r. destruct (Hpt r) as [Hsame|(rec' & nd' & Hin & Hid' & Ho' & Hset)].
      * now left.
      * right. exists rec', nd'. repeat split; simpl; auto.
    + injection Hl as <- _. split; [reflexivity|].
      exists (fun r => r). split; [now rewrite map_id|]. now left.
Qed.

(** The rows the loop appends, whatever its outcome: one for each rule
    it materialized, numbered on from the counter. *)
Lemma process_loop_appends (l : list (recurring A)) :
  forall n d d' res,
    process_loop today now l n d = (d', res) ->
    exists new,
      transactions d' = (transactions d ++ new)%list /\
      transactions_seq d'
      = transactions_seq d + Z.of_nat (List.length new) /\
      map t_id new
      = map (fun i => transactions_seq d + 1 + Z.of_nat i)
            (seq 0 (List.length new)) /\
      Forall (fun t => exists rec,
                In rec l /\
                rule_outcome today rec = Ok (Some (t_date t)) /\
                t = auto_transaction (t_id t) now (t_date t) rec) new.
Proof.
  induction l as [|rec l IH]; intros n d d' res Hl.
  - simpl in Hl. injection Hl as <- _. exists [].
    rewrite app_nil_r. simpl. repeat split; [lia|constructor].
  - rewrite process_loop_cons in Hl.
    destruct (rule_outcome today rec) as [[next_due|]|e] eqn:Ho.
    + apply IH in Hl as (new & Ht & Hs & Hids & Hall).
      simpl in Ht, Hs, Hids.
      exists (auto_transaction (transactions_seq d + 1) now next_due rec
              :: new).
      rewrite Ht, Hs, <- app_assoc. simpl List.length.
      split; [reflexivity|]. split; [lia|]. split.
      * simpl. f_equal; [lia|]. rewrite Hids, <- seq_shift, map_map.
        apply map_ext. intros i. lia.
      * constructor.
        -- exists rec. simpl. auto.
        -- eapply Forall_impl; [|exact Hall]. simpl.
           intros t (rec' & Hin & Hrest). exists rec'. auto.
    + apply IH in Hl as (new & Ht & Hs & Hids & Hall).
      exists new. repeat split; auto.
      eapply Forall_impl; [|exact Hall]. simpl.
      intros t (rec' & Hin & Hrest). exists rec'. auto.
    + injection Hl as <- _. exists [].
      rewrite app_nil_r. simpl. repeat split; [lia|constructor].
Qed.

(** X4: whatever its outcome, a call only appends transactions and only
    moves markers.  The stored transactions stay as they are; each
    appended row is dated today or earlier and is the template of an
    active rule with the provenance suffix; of a rule nothing changes but
    [last_processed]. *)
Theorem process_only_appends (d d' : db A) (res : result Z) :
  process_recurring_transactions today now d = (d', res) ->
  (exists new,
     transactions d' = (transactions d ++ new)%list /\
     Forall (fun t => date_leb (t_date t) today = true /\
                      exists rec,
                        In rec (get_recurring_transactions d) /\
                        t = auto_transaction (t_id t) now (t_date t) rec)
            new) /\
  map recurring_static (recurring_transactions d')
  = map recurring_static (recurring_transactions d) /\
  recurring_seq d' = recurring_seq d.
Proof.
  unfold process_recurring_transactions. intros Hp.
  destruct (process_loop_appends _ _ _ _ _ Hp) as (new & Ht & _ & _ & Hall).
  destruct (process_loop_changes _ _ _ _ _ Hp) as (Hseq & g & Hg & Hpt).
  split; [|split; [|exact Hseq]].
  - exists new. split; [exact Ht|].
    eapply Forall_impl; [|exact Hall]. simpl.
    intros t (rec & Hin & Ho & Heq). split.
    + now apply rule_outcome_due in Ho.
    + exists rec. auto.
  - rewrite Hg, map_map. apply map_ext. intros r.
    destruct (Hpt r) as [->|(rec & nd & _ & _ & _ & ->)]; reflexivity.
Qed.
End ProcessFrame.

Lemma process_only_appends_witness :
  let d := Household.books in
  let d' :=
    fst (process_recurring_transactions (mkdate 2024 1 10)
           "2024-01-10 08:00:00" d) in
  (exists new,
     transactions d' = (transactions d ++ new)%list /\
     Forall (fun t => date_leb (t_date t) (mkdate 2024 1 10) = true /\
                      exists rec,
                        In rec (get_recurring_transactions d) /\
                        t = auto_transaction (t_id t) "2024-01-10 08:00:00"
                              (t_date t) rec)
            new) /\
  map recurring_static (recurring_transactions d')
  = map recurring_static (recurring_transactions d) /\
  recurring_seq d' = recurring_seq d.
Proof.
  intros d d'.
  apply (process_only_appends (mkdate 2024 1 10) "2024-01-10 08:00:00" d d'
           (snd (process_recurring_transactions (mkdate 2024 1 10)
                   "2024-01-10 08:00:00" d))).
  reflexivity.
Defined.


(** ** Markers and keys *)

Section MarkersAndKeys.
Context {A : Type} `{Number A}.

(** A rule that is materialized from a marker is materialized on a later
    day. *)
Lemma rule_outcome_later (today : date) (r : recurring A)
    (last_processed next_due : date) :
  r_last_processed r = Some last_processed ->
  rule_outcome today r = Ok (Some next_due) ->
  date_compare last_processed next_due = Lt.
Proof.
  intros Hlp Ho. apply rule_outcome_due in Ho as [Hn _].
  unfold next_due_date in Hn. rewrite Hlp in Hn.
  destruct (strptime (r_start_date r)) as [start_dt|e]; simpl in Hn;
    [|discriminate].
  unfold strptime in Hn.
  destruct (valid_date last_processed) eqn:Hv; simpl in Hn; [|discriminate].
  now apply next_due_later in Hn.
Qed.

(** X5: a marker never moves back.  With ids a key, a rule that has a
    marker before a call has one after it, on the same day or a later
    one, whatever the outcome of the call. *)
Theorem marker_never_moves_back (today : date) (now : string)
    (d d' : db A) (res : result Z) (r r' : recurring A)
    (last_processed : date) :
  NoDup (map r_id (recurring_transactions d)) ->
  process_recurring_transactions today now d = (d', res) ->
  In r (recurring_transactions d) ->
  In r' (recurring_transactions d') ->
  r_id r' = r_id r ->
  r_last_processed r = Some last_processed ->
  exists last_processed',
    r_last_processed r' = Some last_processed' /\
    date_leb last_processed last_processed' = true.
Proof.
  intros Hnd Hp Hr Hr' Hid Hlp.
  unfold process_recurring_transactions in Hp.
  destruct (process_loop_changes _ _ _ _ _ _ _ Hp) as (_ & g & Hg & Hpt).
  rewrite Hg in Hr'. apply in_map_iff in Hr' as (r0 & <- & Hr0).
  assert (Hg0 : r_id (g r0) = r_id r0).
  { destruct (Hpt r0) as [->|(rec & nd & _ & _ & _ & ->)]; reflexivity. }
  assert (r0 = r)
    by (eapply NoDup_map_inj; [exact Hnd| | |]; auto; congruence).
  subst r0.
  destruct (Hpt r) as [->|(rec & nd & Hin & Hrec & Ho & ->)].
  - exists last_processed. split; [exact Hlp|apply date_leb_refl].
  - assert (rec = r).
    { symmetry. eapply (get_recurring_row d); eauto. }
    subst rec. exists nd. split; [reflexivity|].
    unfold date_leb. now rewrite (rule_outcome_later today r _ _ Hlp Ho).
Qed.

Lemma NoDup_map_injective {X Y : Type} (f : X -> Y) (l : list X) :
  (forall a b, f a = f b -> a = b) -> NoDup l -> NoDup (map f l).
Proof.
  intros Hf. induction 1 as [|x l Hx _ IH]; simpl; constructor; auto.
  intros Hin. apply in_map_iff in Hin as (y & Hy & Hin).
  apply Hf in Hy. now subst y.
Qed.

Lemma keys_appended (d : db A) (new : list (transaction A)) (seq' : Z) :
  NoDup (map t_id (transactions d)) ->
  Forall (fun t => t_id t <= transactions_seq d) (transactions d) ->
  map t_id new
  = map (fun i => transactions_seq d + 1 + Z.of_nat i)
        (seq 0 (List.length new)) ->
  seq' = transactions_seq d + Z.of_nat (List.length new) ->
  NoDup (map t_id (transactions d ++ new)) /\
  Forall (fun t => t_id t <= seq') (transactions d ++ new).
Proof.
  intros Hnd Hle Hids ->.
  assert (Hnew : forall t, In t new ->
            transactions_seq d < t_id t
            <= transactions_seq d + Z.of_nat (List.length new)).
  { intros t Ht. apply (in_map t_id) in Ht. rewrite Hids in Ht.
    apply in_map_iff in Ht as (i & <- & Hi). apply in_seq in Hi. lia. }
  rewrite Forall_forall in Hle. split.
  - rewrite map_app. apply NoDup_app.
    + exact Hnd.
    + rewrite Hids. apply NoDup_map_injective; [|apply seq_NoDup].
      intros i j Hij. lia.
    + intros id Hold Hin. apply in_map_iff in Hold as (t & <- & Ht).
      apply in_map_iff in Hin as (t' & Heq & Ht').
      specialize (Hle _ Ht). specialize (Hnew _ Ht'). lia.
  - apply Forall_forall. intros t Ht. apply in_app_or in Ht as [Ht|Ht].
    + specialize (Hle _ Ht). lia.
    + specialize (Hnew _ Ht). lia.
Qed.

Lemma add_transaction_keys (now : string) (date : date)
    (description category : string) (amount : A)
    (trans_type person : string) (d : db A) :
  keys_ok d ->
  keys_ok (fst (add_transaction now date description category amount
                  trans_type person d)).
Proof.
  intros (Ht & Hts & Hr & Hrs).
  set (row := mktransaction (transactions_seq d + 1) date description
                category amount trans_type person now).
  destruct (keys_appended d [row] (transactions_seq d + 1) Ht Hts)
    as [Hnd Hle]; [simpl; f_equal; lia|simpl; lia|].
  repeat split; auto.
Qed.

Lemma add_recurring_keys (now : string) (description category : string)
    (amount : A) (trans_type person frequency : string) (start_date : date)
    (end_date : option date) (d : db A) :
  keys_ok d ->
  keys_ok (fst (add_recurring_transaction now description category amount
                  trans_type person frequency start_date end_date d)).
Proof.
  intros (Ht & Hts & Hr & Hrs). rewrite Forall_forall in Hrs.
  repeat split; auto; simpl.
  - rewrite map_app. apply NoDup_app; auto.
    + simpl. constructor; [tauto|constructor].
    + intros id Hold [Hid|[]]. apply in_map_iff in Hold as (r & Heq & Hin).
      specialize (Hrs _ Hin). simpl in *. lia.
  - apply Forall_forall. intros r Hin. apply in_app_or in Hin as [Hin|[Hr'|[]]].
    + specialize (Hrs _ Hin). simpl. lia.
    + subst r. simpl. lia.
Qed.

Lemma process_keys (today : date) (now : string) (d : db A) :
  keys_ok d -> keys_ok (fst (process_recurring_transactions today now d)).
Proof.
  intros (Ht & Hts & Hr & Hrs).
  destruct (process_recurring_transactions today now d) as [d' res] eqn:Hp.
  unfold process_recurring_transactions in Hp. simpl fst.
  destruct (process_loop_appends _ _ _ _ _ _ _ Hp)
    as (new & Hnew & Hseq & Hids & _).
  destruct (process_loop_changes _ _ _ _ _ _ _ Hp) as (Hrseq & g & Hg & Hpt).
  destruct (keys_appended d new (transactions_seq d') Ht Hts Hids Hseq)
    as [Hnd Hle].
  assert (Hgid : forall r, r_id (g r) = r_id r).
  { intros r.
    destruct (Hpt r) as [->|(rec & nd & _ & _ & _ & ->)]; reflexivity. }
  unfold keys_ok. rewrite Hnew, Hg, Hrseq, map_map.
  repeat split; auto.
  - now rewrite (map_ext _ _ Hgid).
  - rewrite Forall_forall in *. intros r' Hin.
    apply in_map_iff in Hin as (r & <- & Hin). rewrite Hgid. auto.
Qed.

Lemma import_transaction_keys (now : string) (merge : bool)
    (trans : transaction A) (d : db A) :
  keys_ok d -> keys_ok (import_transaction now merge trans d).
Proof.
  intros Hk. unfold import_transaction. destruct (_ && _); [exact Hk|].
  now apply add_transaction_keys.
Qed.

Lemma import_recurring_keys (now : string) (merge : bool)
    (rec : recurring A) (d : db A) :
  keys_ok d -> keys_ok (import_recurring now merge rec d).
Proof.
  intros Hk. unfold import_recurring. destruct (_ && _); [exact Hk|].
  now apply add_recurring_keys.
Qed.

Lemma import_data_keys (now : string) (data : snapshot A) (merge : bool)
    (d : db A) :
  keys_ok d -> keys_ok (fst (import_data now data merge d)).
Proof.
  intros Hk. unfold import_data. simpl fst.
  assert (Hk0 : keys_ok (if merge then d else clear_existing_data d)).
  { destruct merge; [exact Hk|].
    repeat split; simpl; constructor. }
  revert Hk0. generalize (if merge then d else clear_existing_data d).
  intros d0 Hk0.
  assert (Hk1 : keys_ok
                  (fold_left
                     (fun d trans => import_transaction now merge trans d)
                     (snap_transactions data) d0)).
  { revert d0 Hk0. induction (snap_transactions data) as [|t l IH];
      intros d0 Hk0; simpl; [exact Hk0|].
    apply IH. now apply import_transaction_keys. }
  revert Hk1. generalize (fold_left
                     (fun d trans => import_transaction now merge trans d)
                     (snap_transactions data) d0).
  intros d1 Hk1. revert d1 Hk1.
  induction (snap_recurring_transactions data) as [|r l IH];
    intros d1 Hk1; simpl; [exact Hk1|].
  apply IH. now apply import_recurring_keys.
Qed.

(** X6: every writing operation keeps the primary keys: after
    [add_transaction], [add_recurring_transaction],
    [process_recurring_transactions] (whatever its outcome) and
    [import_data] in either mode, no id occurs twice in a table and none
    is above the counter of its table, if that was so before. *)
Theorem writes_keep_keys (today : date) (now : string) (d : db A)
    (trans : transaction A) (rec : recurring A) (data : snapshot A)
    (merge : bool) :
  keys_ok d ->
  keys_ok (fst (add_transaction now (t_date trans) (t_description trans)
                  (t_category trans) (t_amount trans) (t_type trans)
                  (t_person trans) d)) /\
  keys_ok (fst (add_recurring_transaction now (r_description rec)
                  (r_category rec) (r_amount rec) (r_type rec)
                  (r_person rec) (r_frequency rec) (r_start_date rec)
                  (r_end_date rec) d)) /\
  keys_ok (fst (process_recurring_transactions today now d)) /\
  keys_ok (fst (import_data now data merge d)).
Proof.
  intros Hk. split; [|split; [|split]].
  - now apply add_transaction_keys.
  - now apply add_recurring_keys.
  - now apply process_keys.
  - now apply import_data_keys.
Qed.
End MarkersAndKeys.

Lemma marker_never_moves_back_witness :
  exists last_processed',
    r_last_processed (set_last_processed (mkdate 2024 1 14) Sample.news)
    = Some last_processed' /\
    date_leb (mkdate 2024 1 7) last_processed' = true.
Proof.
  apply (marker_never_moves_back (mkdate 2024 1 20) "2024-01-20 08:00:00"
           Sample.ledger
           (fst (process_recurring_transactions (mkdate 2024 1 20)
                   "2024-01-20 08:00:00" Sample.ledger))
           (snd (process_recurring_transactions (mkdate 2024 1 20)
                   "2024-01-20 08:00:00" Sample.ledger))
           Sample.news_fired
           (set_last_processed (mkdate 2024 1 14) Sample.news)
           (mkdate 2024 1 7)).
  - repeat constructor. simpl. tauto.
  - reflexivity.
  - now left.
  - now left.
  - reflexivity.
  - reflexivity.
Defined.

Lemma writes_keep_keys_witness :
  let d := Household.books in
  let now := "2024-01-10 08:00:00" in
  keys_ok d /\
  keys_ok (fst (add_transaction now (mkdate 2024 1 1) "Lunch" "Food" 12
                  "Expense" "Both" d)) /\
  keys_ok (fst (add_recurring_transaction now "Gym" "Housing" 500 "Expense"
                  "Both" "weekly" (mkdate 2024 1 1)
                  (Some (mkdate 2024 1 31)) d)) /\
  keys_ok (fst (process_recurring_transactions (mkdate 2024 1 10) now d)) /\
  keys_ok (fst (import_data now Household.incoming true d)).
Proof.
  intros d now.
  assert (Hk : keys_ok d).
  { unfold keys_ok, d. simpl. repeat split.
    - repeat constructor; simpl; intuition lia.
    - repeat constructor; simpl; lia.
    - repeat constructor; simpl; tauto.
    - repeat constructor; simpl; lia. }
  split; [exact Hk|].
  exact (writes_keep_keys (mkdate 2024 1 10) now d Sample.lunch_12
           Sample.gym Household.incoming true Hk).
Defined.


(** ** More on imports *)

Section MergeFacts.
Context {A : Type} `{Number A}.
Variable now : string.

Lemma import_transaction_recurring (merge : bool) (trans : transaction A)
    (d : db A) :
  recurring_transactions (import_transaction now merge trans d)
  = recurring_transactions d /\
  recurring_seq (import_transaction now merge trans d) = recurring_seq d.
Proof. unfold import_transaction. now destruct (_ && _). Qed.

(** One turn of the transaction loop of a merge: nothing, or one row at
    the end with the columns of the incoming one. *)
Lemma import_transaction_merge (trans : transaction A) (d : db A) :
  (duplicate_transaction trans d /\
   import_transaction now true trans d = d) \/
  (~ duplicate_transaction trans d /\
   exists row,
     transactions (import_transaction now true trans d)
     = (transactions d ++ [row])%list /\
     transaction_fields row = transaction_fields trans).
Proof.
  unfold import_transaction.
  destruct (existsb _ _) eqn:E; simpl.
  - left. split; [|reflexivity]. now apply merge_skips_transaction.
  - right. split.
    + intros Hd. apply merge_skips_transaction in Hd. congruence.
    + eexists. split; reflexivity.
Qed.

Lemma import_recurring_merge (rec : recurring A) (d : db A) :
  (duplicate_recurring rec d /\ import_recurring now true rec d = d) \/
  (~ duplicate_recurring rec d /\
   exists row,
     recurring_transactions (import_recurring now true rec d)
     = (recurring_transactions d ++ [row])%list /\
     recurring_fields row = recurring_fields rec /\
     r_active row = 1).
Proof.
  unfold import_recurring.
  destruct (existsb _ _) eqn:E; simpl.
  - left. split; [|reflexivity]. now apply merge_skips_recurring.
  - right. split.
    + intros Hd. apply merge_skips_recurring in Hd. congruence.
    + eexists. repeat split; reflexivity.
Qed.

Lemma duplicate_transaction_more (trans : transaction A) (d d' : db A) :
  incl (transactions d) (transactions d') ->
  duplicate_transaction trans d -> duplicate_transaction trans d'.
Proof.
  intros Hincl (t & Hin & Hrest). exists t. split; [now apply Hincl|exact Hrest].
Qed.

Lemma duplicate_recurring_more (rec : recurring A) (d d' : db A) :
  incl (recurring_transactions d) (recurring_transactions d') ->
  duplicate_recurring rec d -> duplicate_recurring rec d'.
Proof.
  intros Hincl (r & Hin & Hrest). exists r. split; [now apply Hincl|exact Hrest].
Qed.

(** The transaction loop of a merge only appends, and each row it
    appends has the columns of an incoming one. *)
Lemma import_transactions_merge (l : list (transaction A)) :
  forall d, exists new,
    transactions
      (fold_left (fun d trans => import_transaction now true trans d) l d)
    = (transactions d ++ new)%list /\
    incl (map transaction_fields new) (map transaction_fields l) /\
    (List.length new <= List.length l)%nat.
Proof.
  induction l as [|trans l IH]; intros d; simpl.
  - exists []. rewrite app_nil_r. repeat split; [apply incl_refl|simpl; lia].
  - destruct (IH (import_transaction now true trans d))
      as (new & Ht & Hincl & Hlen).
    destruct (import_transaction_merge trans d)
      as [[_ Hsame]|(_ & row & Hrow & Hf)].
    + rewrite Hsame in *. exists new. split; [exact Ht|].
      split; [now apply incl_tl|lia].
    + exists (row :: new). rewrite Ht, Hrow, <- app_assoc.
      split; [reflexivity|]. split; [|simpl; lia].
      simpl. rewrite Hf. apply incl_cons; [now left|now apply incl_tl].
Qed.

Lemma import_recurrings_merge (l : list (recurring A)) :
  forall d, exists new,
    recurring_transactions
      (fold_left (fun d rec => import_recurring now true rec d) l d)
    = (recurring_transactions d ++ new)%list /\
    incl (map recurring_fields new) (map recurring_fields l) /\
    (List.length new <= List.length l)%nat.
Proof.
  induction l as [|rec l IH]; intros d; simpl.
  - exists []. rewrite app_nil_r. repeat split; [apply incl_refl|simpl; lia].
  - destruct (IH (import_recurring now true rec d))
      as (new & Ht & Hincl & Hlen).
    destruct (import_recurring_merge rec d)
      as [[_ Hsame]|(_ & row & Hrow & Hf & _)].
    + rewrite Hsame in *. exists new. split; [exact Ht|].
      split; [now apply incl_tl|lia].
    + exists (row :: new). rewrite Ht, Hrow, <- app_assoc.
      split; [reflexivity|]. split; [|simpl; lia].
      simpl. rewrite Hf. apply incl_cons; [now left|now apply incl_tl].
Qed.

Lemma import_transactions_recurring (merge : bool)
    (l : list (transaction A)) :
  forall d,
    recurring_transactions
      (fold_left (fun d trans => import_transaction now merge trans d) l d)
    = recurring_transactions d.
Proof.
  induction l as [|trans l IH]; intros d; simpl; [reflexivity|].
  rewrite IH. apply import_transaction_recurring.
Qed.

(** X7: a merge never deletes or edits.  Both tables keep their rows in
    place; what is added comes at the end, is no more than the snapshot
    holds, and has the columns of a record of the snapshot. *)
Theorem merge_only_adds (data : snapshot A) (d : db A) :
  let d' := fst (import_data now data true d) in
  exists new_transactions new_rules,
    transactions d' = (transactions d ++ new_transactions)%list /\
    recurring_transactions d'
    = (recurring_transactions d ++ new_rules)%list /\
    incl (map transaction_fields new_transactions)
         (map transaction_fields (snap_transactions data)) /\
    incl (map recurring_fields new_rules)
         (map recurring_fields (snap_recurring_transactions data)) /\
    (List.length new_transactions <= List.length (snap_transactions data))%nat
    /\
    (List.length new_rules
     <= List.length (snap_recurring_transactions data))%nat.
Proof.
  unfold import_data. simpl.
  destruct (import_transactions_merge (snap_transactions data) d)
    as (newt & Ht & Hit & Hlt).
  set (d1 := fold_left _ (snap_transactions data) d) in *.
  destruct (import_recurrings_merge (snap_recurring_transactions data) d1)
    as (newr & Hr & Hir & Hlr).
  exists newt, newr.
  rewrite import_recurrings_transactions, Ht, Hr.
  unfold d1. rewrite import_transactions_recurring.
  repeat split; auto.
Qed.

(** After the transaction loop of a merge every incoming transaction that
    equals itself in amount has a counterpart in the store. *)
Lemma import_transactions_covered (l : list (transaction A)) :
  forall d trans,
    In trans l ->
    num_eqb (t_amount trans) (t_amount trans) = true ->
    duplicate_transaction trans
      (fold_left (fun d trans => import_transaction now true trans d) l d).
Proof.
  induction l as [|x l IH]; intros d trans Hin Hrefl; [destruct Hin|].
  simpl. destruct Hin as [->|Hin]; [|now apply IH].
  destruct (import_transactions_merge l (import_transaction now true trans d))
    as (new & Ht & _).
  apply duplicate_transaction_more
    with (d := import_transaction now true trans d).
  - rewrite Ht. apply incl_appl, incl_refl.
  - destruct (import_transaction_merge trans d)
      as [[Hdup ->]|(_ & row & Hrow & Hf)]; [exact Hdup|].
    exists row. rewrite Hrow. split; [apply in_or_app; right; now left|].
    unfold transaction_fields in Hf. injection Hf as Hd Hdesc _ Ha _ _.
    rewrite Hd, Hdesc, Ha. auto.
Qed.

Lemma import_recurrings_covered (l : list (recurring A)) :
  forall d rec,
    In rec l ->
    duplicate_recurring rec
      (fold_left (fun d rec => import_recurring now true rec d) l d).
Proof.
  induction l as [|x l IH]; intros d rec Hin; [destruct Hin|].
  simpl. destruct Hin as [->|Hin]; [|now apply IH].
  destruct (import_recurrings_merge l (import_recurring now true rec d))
    as (new & Ht & _).
  apply duplicate_recurring_more
    with (d := import_recurring now true rec d).
  - rewrite Ht. apply incl_appl, incl_refl.
  - destruct (import_recurring_merge rec d)
      as [[Hdup ->]|(_ & row & Hrow & Hf & Hact)]; [exact Hdup|].
    exists row. rewrite Hrow. split; [apply in_or_app; right; now left|].
    unfold recurring_fields in Hf.
    injection Hf as Hdesc _ _ Hty _ Hfreq _ _.
    auto.
Qed.

Lemma import_recurrings_all_skipped (l : list (recurring A)) :
  forall d,
    (forall rec, In rec l -> duplicate_recurring rec d) ->
    fold_left (fun d rec => import_recurring now true rec d) l d = d.
Proof.
  induction l as [|rec l IH]; intros d Hdup; simpl; [reflexivity|].
  assert (Hskip : import_recurring now true rec d = d).
  { unfold import_recurring.
    rewrite (proj2 (merge_skips_recurring rec d)); [reflexivity|].
    apply Hdup. now left. }
  rewrite Hskip. apply IH. intros r Hr. apply Hdup. now right.
Qed.
End MergeFacts.

Section MergeAgain.
Context {A : Type} `{Number A}.

(** X8: merging is idempotent.  When every amount of the snapshot equals
    itself, merging the snapshot a second time changes nothing. *)
Theorem merge_twice (now now' : string) (data : snapshot A) (d : db A) :
  (forall t, In t (snap_transactions data) ->
             num_eqb (t_amount t) (t_amount t) = true) ->
  let d1 := fst (import_data now data true d) in
  import_data now' data true d1 = (d1, true).
Proof.
  intros Hrefl d1. unfold import_data at 1. f_equal.
  assert (Ht : forall t, In t (snap_transactions data) ->
                         duplicate_transaction t d1).
  { intros t Hin. unfold d1, import_data. simpl fst.
    eapply duplicate_transaction_more;
      [|apply (import_transactions_covered now _ d t Hin (Hrefl t Hin))].
    rewrite import_recurrings_transactions. apply incl_refl. }
  rewrite (import_transactions_all_skipped now' _ d1 Ht).
  apply import_recurrings_all_skipped.
  intros rec Hin. unfold d1, import_data. simpl fst.
  now apply import_recurrings_covered.
Qed.

(** X9: merging the export of a store into that store changes nothing,
    when every stored amount equals itself. *)
Theorem export_then_merge (isonow now : string) (d : db A) :
  (forall t, In t (transactions d) ->
             num_eqb (t_amount t) (t_amount t) = true) ->
  import_data now (export_data isonow d) true d = (d, true).
Proof.
  intros Hrefl. unfold import_data, export_data. simpl. f_equal.
  rewrite import_transactions_all_skipped.
  - apply import_recurrings_all_skipped. intros rec Hin.
    apply get_recurring_In in Hin as [Hin Hact].
    exists rec. auto.
  - intros t Hin. apply get_transactions_In in Hin as [Hin _].
    exists t. repeat split; auto.
Qed.

(** X10: a replacing import stores the snapshot as it is, whatever the
    store held: the supplied columns of all its transactions and of all
    its rules in the order of the snapshot, repeated records included,
    and every rule active and without marker. *)
Theorem replace_is_exact (now : string) (data : snapshot A) (d : db A) :
  let d' := fst (import_data now data false d) in
  map transaction_fields (transactions d')
  = map transaction_fields (snap_transactions data) /\
  map recurring_fields (recurring_transactions d')
  = map recurring_fields (snap_recurring_transactions data) /\
  Forall (fun r => r_active r = 1 /\ r_last_processed r = None)
         (recurring_transactions d').
Proof.
  unfold import_data. simpl.
  destruct (import_transactions_replace now (snap_transactions data)
              (clear_existing_data d)) as (newt & Ht & Hft & _ & Hr & _).
  set (d1 := fold_left _ (snap_transactions data) _) in *.
  destruct (import_recurrings_replace now (snap_recurring_transactions data)
              d1) as (newr & Hrr & Hfr & Hallr).
  simpl in *. rewrite import_recurrings_transactions, Ht, Hrr, Hr. simpl.
  split; [exact Hft|]. split; [exact Hfr|].
  eapply Forall_impl; [|exact Hallr]. simpl. tauto.
Qed.

Lemma ForallOrdPairs_snoc {X : Type} (R : X -> X -> Prop) (l : list X)
    (x : X) :
  ForallOrdPairs R l -> Forall (fun y => R y x) l ->
  ForallOrdPairs R (l ++ [x]).
Proof.
  induction 1 as [|y l Hy _ IH]; intros Hall; simpl.
  - constructor; constructor.
  - apply Forall_cons_iff in Hall as [Hyx Hall]. constructor.
    + apply Forall_app. split; [exact Hy|]. now constructor.
    + now apply IH.
Qed.

(** X11: a merge creates no duplicates of its own.  If no stored
    transaction is a counterpart of a later one (same date, description
    and amount), that is still so after a merge. *)
Theorem merge_keeps_apart (now : string) (data : snapshot A) (d : db A) :
  ForallOrdPairs (fun t1 t2 => ~ same_key t1 t2) (transactions d) ->
  ForallOrdPairs (fun t1 t2 => ~ same_key t1 t2)
    (transactions (fst (import_data now data true d))).
Proof.
  unfold import_data. simpl fst. rewrite import_recurrings_transactions.
  revert d. induction (snap_transactions data) as [|trans l IH];
    intros d Hd; simpl; [exact Hd|].
  apply IH.
  destruct (import_transaction_merge now trans d)
    as [[_ ->]|(Hnew & row & -> & Hf)]; [exact Hd|].
  apply ForallOrdPairs_snoc; [exact Hd|].
  apply Forall_forall. intros t Hin (Hdate & Hdesc & Ha).
  apply Hnew. exists t. unfold transaction_fields in Hf.
  injection Hf as Hd' Hdesc' _ Ha' _ _.
  rewrite <- Hd', <- Hdesc', <- Ha'. auto.
Qed.
End MergeAgain.

Lemma merge_twice_witness :
  let d1 :=
    fst (import_data "2024-01-10 08:00:00" Household.incoming true
           Household.books) in
  import_data "2024-01-11 08:00:00" Household.incoming true d1 = (d1, true).
Proof.
  apply (merge_twice "2024-01-10 08:00:00" "2024-01-11 08:00:00"
           Household.incoming Household.books).
  intros t _. apply Z.eqb_refl.
Defined.

Lemma export_then_merge_witness :
  import_data "2024-01-10 08:00:00"
    (export_data "2024-01-10T08:00:00" Household.books) true Household.books
  = (Household.books, true).
Proof.
  apply (export_then_merge "2024-01-10T08:00:00" "2024-01-10 08:00:00"
           Household.books).
  intros t _. apply Z.eqb_refl.
Defined.

Lemma merge_keeps_apart_witness :
  ForallOrdPairs (fun t1 t2 : transaction Z => ~ same_key t1 t2)
    (transactions
       (fst (import_data "2024-01-10 08:00:00" Household.incoming true
               Household.books))).
Proof.
  apply (merge_keeps_apart "2024-01-10 08:00:00" Household.incoming
           Household.books).
  repeat constructor; unfold same_key; simpl;
    intros (Hdate & Hdescription & _); discriminate.
Defined.


(** ** More on queries *)

Section QueryFacts.
Context {A : Type} `{Number A}.

Lemma StronglySorted_before {X : Type} (R : X -> X -> Prop)
    (l1 l2 : list X) (x : X) :
  (forall a b c, R a b -> R b c -> R a c) ->
  Sorted.StronglySorted R (l1 ++ x :: l2) -> Forall (fun y => R y x) l1.
Proof.
  intros Htrans. induction l1 as [|y l1 IH]; simpl; intros Hs.
  - constructor.
  - inversion Hs as [|? ? Hs' Hy]; subst. constructor.
    + rewrite Forall_forall in Hy. apply Hy. apply in_or_app. right. now left.
    + now apply IH.
Qed.

Lemma get_transactions_NoDup (f : option filters) (d : db A) :
  NoDup (map t_id (transactions d)) ->
  NoDup (map t_id (get_transactions f d)).
Proof.
  intros Hnd. unfold get_transactions.
  eapply Permutation_NoDup.
  - apply Permutation_map, Permutation_sym, sort_perm.
  - now apply NoDup_map_filter.
Qed.

(** X12: a transaction that is added joins exactly the queries whose
    filter it meets, and no other row enters or leaves any query.  With
    the keys in order, it is listed before every stored row of its date:
    only rows of a later date come before it. *)
Theorem add_then_query (now : string) (date : date)
    (description category : string) (amount : A)
    (trans_type person : string) (d : db A) (f : option filters) :
  let d' := fst (add_transaction now date description category amount
                   trans_type person d) in
  let row := mktransaction (transactions_seq d + 1) date description
               category amount trans_type person now in
  snd (add_transaction now date description category amount trans_type
         person d) = t_id row /\
  Permutation (get_transactions f d')
    (if where_clause f row then row :: get_transactions f d
     else get_transactions f d) /\
  In row (get_transactions
            (Some (mkfilters (Some date) (Some date) None None None)) d') /\
  (keys_ok d ->
   forall before after,
     get_transactions f d' = (before ++ row :: after)%list ->
     Forall (fun t => date_compare (t_date t) date = Gt) before).
Proof.
  intros d' row. split; [reflexivity|]. split; [|split].
  - unfold get_transactions, d'. simpl transactions. rewrite filter_app.
    simpl filter. fold row. destruct (where_clause f row).
    + rewrite sort_perm, sort_perm.
      apply Permutation_sym, Permutation_cons_append.
    + rewrite app_nil_r. now rewrite !sort_perm.
  - apply get_transactions_In. split.
    + simpl. apply in_or_app. right. now left.
    + now apply where_same_date.
  - intros Hk before after Hres.
    assert (Hk' : keys_ok d') by now apply add_transaction_keys.
    destruct Hk as (_ & Hle & _). destruct Hk' as (Hnd & _).
    apply (get_transactions_NoDup f) in Hnd.
    rewrite Hres, map_app in Hnd. simpl map in Hnd.
    apply NoDup_remove_2 in Hnd.
    assert (Hs : Sorted.StronglySorted date_desc_id_desc
                   (before ++ row :: after)).
    { rewrite <- Hres. apply sort_sorted.
      - apply order_by_yes.
      - apply order_by_no.
      - apply date_desc_id_desc_trans. }
    pose proof (StronglySorted_before _ _ _ _
                  (@date_desc_id_desc_trans A) Hs) as Hb.
    apply Forall_forall. intros t Ht.
    rewrite Forall_forall in Hb. destruct (Hb _ Ht) as [Hgt|[_ Hid]].
    + exact Hgt.
    + exfalso.
      assert (Hin : In t (get_transactions f d'))
        by (rewrite Hres; apply in_or_app; now left).
      apply get_transactions_In in Hin as [Hin _].
      simpl in Hin, Hid. apply in_app_or in Hin as [Hin|[Heq|[]]].
      * rewrite Forall_forall in Hle. specialize (Hle _ Hin). lia.
      * apply Hnd. apply in_or_app. left. apply in_map_iff.
        exists t. split; [now subst t|exact Ht].
Qed.
End QueryFacts.

Lemma add_then_query_witness :
  keys_ok Household.books /\
  Forall (fun t => date_compare (t_date t) (mkdate 2024 1 5) = Gt)
    [Household.dinner; Household.groceries].
Proof.
  assert (Hk : keys_ok Household.books).
  { unfold keys_ok. simpl. repeat split.
    - repeat constructor; simpl; intuition lia.
    - repeat constructor; simpl; lia.
    - repeat constructor; simpl; tauto.
    - repeat constructor; simpl; lia. }
  split; [exact Hk|].
  destruct (add_then_query "2024-01-10 08:00:00" (mkdate 2024 1 5) "Coffee"
              "Food" 4 "Expense" "Both" Household.books None)
    as (_ & _ & _ & Hbefore).
  apply (Hbefore Hk [Household.dinner; Household.groceries]
           [Household.salary]).
  reflexivity.
Defined.


(** ** Queries do not depend on the order of storage *)

Section QueryOrder.
Context {A : Type} `{Number A}.

(** Two sorted arrangements of the same elements are the same list, when
    no two of the elements are each before the other. *)
Lemma sorted_arrangement_unique {X : Type} (R : X -> X -> Prop)
    (l1 : list X) :
  forall l2,
    Sorted.StronglySorted R l1 -> Sorted.StronglySorted R l2 ->
    Permutation l1 l2 ->
    (forall a b, In a l1 -> In b l1 -> R a b -> R b a -> a = b) ->
    l1 = l2.
Proof.
  induction l1 as [|a l1 IH]; intros l2 Hs1 Hs2 Hp Hanti.
  - apply Permutation_nil in Hp. now subst.
  - destruct l2 as [|b l2].
    + apply Permutation_sym, Permutation_nil in Hp. discriminate.
    + inversion Hs1 as [|? ? Hs1' Ha]; subst.
      inversion Hs2 as [|? ? Hs2' Hb]; subst.
      rewrite Forall_forall in Ha, Hb.
      assert (Hab : a = b).
      { assert (Hina : In a (b :: l2))
          by (eapply Permutation_in; [exact Hp|now left]).
        assert (Hinb : In b (a :: l1))
          by (eapply Permutation_in;
              [apply Permutation_sym; exact Hp|now left]).
        destruct Hina as [->|Hina]; [reflexivity|].
        destruct Hinb as [->|Hinb]; [reflexivity|].
        apply Hanti; simpl; auto. }
      subst b. f_equal. apply IH; auto.
      * now apply Permutation_cons_inv in Hp.
      * intros x y Hx Hy. apply Hanti; now right.
Qed.

Lemma date_desc_id_desc_antisym (a b : transaction A) :
  date_desc_id_desc a b -> date_desc_id_desc b a ->
  t_date a = t_date b /\ t_id a = t_id b.
Proof.
  intros [Hab|[Hd Hi]] [Hba|[Hd' Hi']].
  - rewrite date_compare_antisym, Hab in Hba. discriminate.
  - rewrite Hd', date_compare_refl in Hab. discriminate.
  - rewrite Hd, date_compare_refl in Hba. discriminate.
  - split; [exact Hd|lia].
Qed.

(** X13: with ids a key, a query depends on the rows that are stored and
    not on the order in which the table holds them: the order of the
    result is fixed by the dates and the ids alone. *)
Theorem query_ignores_storage_order (f : option filters) (d1 d2 : db A) :
  NoDup (map t_id (transactions d1)) ->
  Permutation (transactions d1) (transactions d2) ->
  get_transactions f d1 = get_transactions f d2.
Proof.
  intros Hnd Hp.
  assert (Hsorted : forall d : db A,
            Sorted.StronglySorted date_desc_id_desc (get_transactions f d)).
  { intros d. apply sort_sorted.
    - apply order_by_yes.
    - apply order_by_no.
    - apply date_desc_id_desc_trans. }
  apply (sorted_arrangement_unique date_desc_id_desc); auto.
  - unfold get_transactions. rewrite !sort_perm.
    clear Hnd. induction Hp as [|x l l' Hp IH|x y l|l l' l'' Hp1 IH1 Hp2 IH2];
      simpl.
    + constructor.
    + destruct (where_clause f x); [now constructor|exact IH].
    + destruct (where_clause f x), (where_clause f y);
        try reflexivity. apply perm_swap.
    + now rewrite IH1.
  - intros a b Ha Hb Hab Hba.
    apply get_transactions_In in Ha as [Ha _].
    apply get_transactions_In in Hb as [Hb _].
    destruct (date_desc_id_desc_antisym a b Hab Hba) as [_ Hid].
    eapply NoDup_map_inj; eauto.
Qed.

(** X14: the table of the main tab lists the stored transactions inside
    the two date boxes that are filled in and of the category in the
    category box.  An empty category box and the entry ["All"] stand for
    every category, so the rows of a category that is itself named
    ["All"] cannot be picked out. *)
Theorem refresh_shows (filter_start filter_end : option date)
    (filter_cat : string) (d : db A) (t : transaction A) :
  In t (refresh_transactions filter_start filter_end filter_cat d) <->
  In t (transactions d) /\
  (forall p, filter_start = Some p -> date_leb p (t_date t) = true) /\
  (forall p, filter_end = Some p -> date_leb (t_date t) p = true) /\
  (filter_cat = "" \/ filter_cat = "All" \/ t_category t = filter_cat).
Proof.
  unfold refresh_transactions. rewrite get_transactions_In.
  rewrite where_clause_satisfies. unfold satisfies, refresh_filters.
  cbn [f_start_date f_end_date f_category f_person f_type].
  destruct (String.eqb_spec filter_cat "") as [E1|E1];
    destruct (String.eqb_spec filter_cat "All") as [E2|E2]; simpl;
    split; intros (Hin & Hrest); (split; [exact Hin|]);
    repeat split; try tauto; try discriminate.
  - right. right. destruct Hrest as (_ & _ & Hc & _). now apply Hc.
  - intros c [= <-] _. destruct Hrest as (_ & _ & [?|[?|?]]); congruence.
Qed.
End QueryOrder.

Lemma query_ignores_storage_order_witness :
  get_transactions None Household.books
  = get_transactions None Household.shuffled.
Proof.
  apply (query_ignores_storage_order None Household.books
           Household.shuffled).
  - repeat constructor; simpl; intuition lia.
  - apply Permutation_sym.
    apply (Permutation_cons_append
             [Household.salary; Household.groceries] Household.dinner).
Defined.


(** ** The chart *)

Section Chart.
Context {A : Type} `{Number A}.

Lemma date_asc_id_desc_trans (a b c : transaction A) :
  date_asc_id_desc a b -> date_asc_id_desc b c -> date_asc_id_desc a c.
Proof.
  unfold date_asc_id_desc.
  intros [Hab|[Hab Hi]] [Hbc|[Hbc Hj]].
  - left. rewrite date_compare_antisym in Hab, Hbc |- *.
    destruct (date_compare (t_date b) (t_date a)) eqn:E1; try discriminate.
    destruct (date_compare (t_date c) (t_date b)) eqn:E2; try discriminate.
    now rewrite (date_compare_gt_trans _ _ _ E2 E1).
  - left. now rewrite <- Hbc.
  - left. now rewrite Hab.
  - right. split; [congruence|lia].
Qed.

(** The stable sort by date turns newest-first rows into rows by date,
    and leaves the rows of a date newest first. *)
Lemma insert_by_date (x : transaction A) (l : list (transaction A)) :
  Forall (date_desc_id_desc x) l ->
  Sorted.StronglySorted date_asc_id_desc l ->
  Sorted.StronglySorted date_asc_id_desc
    (insert (fun x y => date_leb (t_date x) (t_date y)) x l).
Proof.
  intros Hx Hs. induction Hs as [|y l Hs IH Hy]; simpl.
  - repeat constructor.
  - apply Forall_cons_iff in Hx as [Hxy Hx].
    destruct (date_leb (t_date x) (t_date y)) eqn:E.
    + constructor; [now constructor|].
      assert (Hone : forall z, date_desc_id_desc x z ->
                date_leb (t_date x) (t_date z) = true ->
                date_asc_id_desc x z).
      { intros z [Hgt|[Heq Hid]] Hle.
        - unfold date_leb in Hle. rewrite Hgt in Hle. discriminate.
        - right. auto. }
      constructor; [now apply Hone|].
      rewrite Forall_forall in *. intros z Hz. apply Hone; [now apply Hx|].
      apply date_leb_trans with (t_date y); [exact E|].
      destruct (Hy _ Hz) as [Hlt|[Heq _]].
      * unfold date_leb. now rewrite Hlt.
      * rewrite Heq. apply date_leb_refl.
    + constructor; [now apply IH|].
      rewrite Forall_forall in *. intros z Hz.
      apply (Permutation_in _ (insert_perm _ x l)) in Hz.
      destruct Hz as [<-|Hz]; [|now apply Hy].
      left. apply date_leb_false in E as [Hle Hne].
      unfold date_leb in Hle.
      destruct (date_compare (t_date y) (t_date x)) eqn:C;
        [|reflexivity|discriminate].
      apply date_compare_eq in C. congruence.
Qed.

Lemma sort_by_date_of_newest_first (l : list (transaction A)) :
  Sorted.StronglySorted date_desc_id_desc l ->
  Sorted.StronglySorted date_asc_id_desc
    (sort (fun x y => date_leb (t_date x) (t_date y)) l).
Proof.
  induction 1 as [|x l Hs IH Hx]; simpl.
  - constructor.
  - apply insert_by_date; [|exact IH].
    rewrite Forall_forall in *. intros z Hz. apply Hx.
    now apply sort_In in Hz.
Qed.

(** X15: the chart runs through the transactions inside the two date
    boxes by date and, within a date, from the newest id to the oldest:
    its points are the dates and the signed sums up to each row of that
    arrangement.  The category box plays no part. *)
Theorem chart_order (filter_start filter_end : option date) (d : db A) :
  (forall t, In t (transactions d) -> valid_date (t_date t) = true) ->
  exists rows,
    update_chart filter_start filter_end d
    = Ok (combine (map t_date rows) (cumulative_sums rows)) /\
    Sorted.StronglySorted date_asc_id_desc rows /\
    (forall t, In t rows <->
               In t (transactions d) /\
               (forall p, filter_start = Some p ->
                          date_leb p (t_date t) = true) /\
               (forall p, filter_end = Some p ->
                          date_leb (t_date t) p = true)) /\
    List.length rows
    = List.length (refresh_transactions filter_start filter_end "All" d).
Proof.
  intros Hv.
  set (query := get_transactions
                  (Some (date_filters filter_start filter_end)) d).
  exists (sort (fun x y => date_leb (t_date x) (t_date y)) query).
  split; [|split; [|split]].
  - unfold update_chart, running_balance. fold query.
    rewrite balance_loop_spec; [reflexivity|].
    apply Forall_forall. intros t Ht. apply sort_In in Ht.
    apply get_transactions_In in Ht as [Ht _]. now apply Hv.
  - apply sort_by_date_of_newest_first. apply sort_sorted.
    + apply order_by_yes.
    + apply order_by_no.
    + apply date_desc_id_desc_trans.
  - intros t. rewrite sort_In. unfold query.
    rewrite get_transactions_In, where_clause_satisfies.
    unfold satisfies, date_filters.
    cbn [f_start_date f_end_date f_category f_person f_type].
    split; intros (Hin & Hrest); (split; [exact Hin|]);
      repeat split; try tauto; discriminate.
  - rewrite sort_length. reflexivity.
Qed.
End Chart.

Lemma chart_order_witness :
  exists rows,
    update_chart None None Household.books
    = Ok (combine (map t_date rows) (cumulative_sums rows)) /\
    Sorted.StronglySorted date_asc_id_desc rows /\
    (forall t, In t rows <->
               In t (transactions Household.books) /\
               (forall p, @None date = Some p ->
                          date_leb p (t_date t) = true) /\
               (forall p, @None date = Some p ->
                          date_leb (t_date t) p = true)) /\
    List.length rows
    = List.length (refresh_transactions None None "All" Household.books).
Proof.
  apply (chart_order None None Household.books).
  intros t [<-|[<-|[<-|[]]]]; reflexivity.
Defined.


(** ** Sums in exact arithmetic *)

(** The laws of addition that Python's integers have, and its floats do
    not. *)
Section ExactSums.
Context {A : Type} `{Number A}.
Hypothesis add_assoc :
  forall a b c : A, num_add a (num_add b c) = num_add (num_add a b) c.
Hypothesis add_comm : forall a b : A, num_add a b = num_add b a.
Hypothesis add_zero : forall a : A, num_add num_zero a = a.
Hypothesis neg_add :
  forall a b : A, num_neg (num_add a b) = num_add (num_neg a) (num_neg b).
Hypothesis neg_zero : num_neg (num_zero : A) = num_zero.

Lemma fold_add_from (l : list A) (a : A) :
  fold_left num_add l a = num_add a (amount_sum l).
Proof.
  unfold amount_sum. revert a. induction l as [|x l IH]; intros a; simpl.
  - now rewrite add_comm, add_zero.
  - rewrite IH, (IH (num_add num_zero x)), add_zero. symmetry. apply add_assoc.
Qed.

Lemma amount_sum_cons (x : A) (l : list A) :
  amount_sum (x :: l) = num_add x (amount_sum l).
Proof.
  unfold amount_sum at 1. simpl. now rewrite fold_add_from, add_zero.
Qed.


Lemma amount_sum_app (l l' : list A) :
  amount_sum (l ++ l') = num_add (amount_sum l) (amount_sum l').
Proof.
  induction l as [|x l IH]; simpl.
  - now rewrite add_zero.
  - now rewrite !amount_sum_cons, IH, add_assoc.
Qed.








End ExactSums.





(** ** Dictionaries *)

Section DictFacts.
Context {V : Type}.

Lemma dict_update_keys (key : string) (default : V) (f : V -> V)
    (dict : list (string * V)) :
  map fst (dict_update key default f dict)
  = if existsb (String.eqb key) (map fst dict)
    then map fst dict else (map fst dict ++ [key])%list.
Proof.
  induction dict as [|[k v] dict IH]; simpl; [reflexivity|].
  rewrite (String.eqb_sym key k).
  destruct (String.eqb k key); simpl; [reflexivity|].
  rewrite IH. now destruct (existsb _ _).
Qed.

Lemma dict_update_NoDup (key : string) (default : V) (f : V -> V)
    (dict : list (string * V)) :
  NoDup (map fst dict) -> NoDup (map fst (dict_update key default f dict)).
Proof.
  intros Hnd. rewrite dict_update_keys.
  destruct (existsb _ _) eqn:E; [exact Hnd|].
  apply NoDup_app; [exact Hnd|repeat constructor; simpl; tauto|].
  intros k Hin [<-|[]]. apply not_true_iff_false in E. apply E.
  apply existsb_exists. exists key. split; [exact Hin|apply String.eqb_refl].
Qed.

Lemma dict_get_update (k key : string) (default : V) (f : V -> V)
    (dict : list (string * V)) :
  dict_get k (dict_update key default f dict)
  = if String.eqb key k
    then Some (f match dict_get key dict with
                 | Some v => v
                 | None => default
                 end)
    else dict_get k dict.
Proof.
  induction dict as [|[k' v] dict IH]; simpl.
  - rewrite (String.eqb_sym key k). now destruct (String.eqb k key).
  - destruct (String.eqb_spec k' key) as [->|Hne]; simpl.
    + rewrite (String.eqb_sym key k). now destruct (String.eqb k key).
    + rewrite IH. destruct (String.eqb_spec key k) as [->|Hne'].
      * destruct (String.eqb_spec k' k); [contradiction|reflexivity].
      * reflexivity.
Qed.

Lemma dict_get_In (k : string) (v : V) (dict : list (string * V)) :
  NoDup (map fst dict) ->
  In (k, v) dict <-> dict_get k dict = Some v.
Proof.
  induction dict as [|[k' v'] dict IH]; simpl; intros Hnd.
  - split; [tauto|discriminate].
  - apply NoDup_cons_iff in Hnd as [Hk Hnd].
    destruct (String.eqb_spec k' k) as [->|Hne].
    + split.
      * intros [[= ->]|Hin]; [reflexivity|].
        exfalso. apply Hk. now apply (in_map fst) in Hin.
      * intros [= ->]. now left.
    + rewrite <- (IH Hnd). split; [|tauto].
      intros [[= -> ->]|Hin]; [contradiction|exact Hin].
Qed.

(** A loop that files some of its rows under their key: the value found
    under a key is built from the rows of that key, in their order. *)
Section Grouping.
Context {X : Type} (sel : X -> bool) (key : X -> string) (default : V)
  (step : X -> V -> V).

Lemma group_NoDup (l : list X) :
  forall dict,
    NoDup (map fst dict) ->
    NoDup (map fst
             (fold_left
                (fun dict x =>
                   if sel x then dict_update (key x) default (step x) dict
                   else dict) l dict)).
Proof.
  induction l as [|x l IH]; intros dict Hnd; simpl; [exact Hnd|].
  apply IH. destruct (sel x); [now apply dict_update_NoDup|exact Hnd].
Qed.

Lemma group_get (k : string) (l : list X) :
  forall dict,
    dict_get k
      (fold_left
         (fun dict x =>
            if sel x then dict_update (key x) default (step x) dict
            else dict) l dict)
    = match filter (fun x => sel x && String.eqb (key x) k) l with
      | [] => dict_get k dict
      | rows =>
          Some (fold_left (fun v x => step x v) rows
                  match dict_get k dict with
                  | Some v => v
                  | None => default
                  end)
      end.
Proof.
  induction l as [|x l IH]; intros dict; simpl; [reflexivity|].
  rewrite IH. destruct (sel x); simpl.
  - rewrite dict_get_update.
    destruct (String.eqb_spec (key x) k) as [->|Hne]; simpl.
    + now destruct (filter _ l).
    + reflexivity.
  - reflexivity.
Qed.
End Grouping.

(** The same for a loop that files every row. *)
Section GroupingAll.
Context {X : Type} (key : X -> string) (default : V) (step : X -> V -> V).

Lemma group_all_NoDup (l : list X) :
  forall dict,
    NoDup (map fst dict) ->
    NoDup (map fst
             (fold_left
                (fun dict x => dict_update (key x) default (step x) dict)
                l dict)).
Proof.
  induction l as [|x l IH]; intros dict Hnd; simpl; [exact Hnd|].
  apply IH. now apply dict_update_NoDup.
Qed.

Lemma group_all_get (k : string) (l : list X) :
  forall dict,
    dict_get k
      (fold_left
         (fun dict x => dict_update (key x) default (step x) dict) l dict)
    = match filter (fun x => String.eqb (key x) k) l with
      | [] => dict_get k dict
      | rows =>
          Some (fold_left (fun v x => step x v) rows
                  match dict_get k dict with
                  | Some v => v
                  | None => default
                  end)
      end.
Proof.
  induction l as [|x l IH]; intros dict; simpl; [reflexivity|].
  rewrite IH, dict_get_update.
  destruct (String.eqb_spec (key x) k) as [->|Hne]; simpl.
  - now destruct (filter _ l).
  - reflexivity.
Qed.
End GroupingAll.
End DictFacts.


(** ** The breakdowns of the summary and of the reports *)

Section Breakdowns.
Context {A : Type} `{Number A}.

Lemma fold_left_same {X Y : Type} (f g : Y -> X -> Y) (l : list X) :
  (forall a x, f a x = g a x) ->
  forall a, fold_left f l a = fold_left g l a.
Proof.
  intros Hfg. induction l as [|x l IH]; intros a; simpl; [reflexivity|].
  now rewrite Hfg, IH.
Qed.

Lemma fold_amounts (rows : list (transaction A)) (a : A) :
  fold_left (fun v x => num_add v (t_amount x)) rows a
  = fold_left num_add (map t_amount rows) a.
Proof.
  revert a. induction rows as [|x rows IH]; intros a; simpl;
    [reflexivity|apply IH].
Qed.

(** X17: the category breakdown of the summary holds each category that
    has an expense once, with the sum of the amounts of its expenses,
    added up in the order of the listing; incomes are not counted. *)
Theorem expenses_by_category (l : list (transaction A)) :
  NoDup (map fst (expense_categories l)) /\
  forall cat,
    dict_get cat (expense_categories l)
    = match filter (fun t => String.eqb (t_type t) "Expense"
                             && String.eqb (t_category t) cat) l with
      | [] => None
      | rows => Some (amount_sum (map t_amount rows))
      end.
Proof.
  unfold expense_categories. split.
  - apply (group_NoDup (fun t => String.eqb (t_type t) "Expense") t_category
             num_zero (fun t v => num_add v (t_amount t))).
    constructor.
  - intros cat.
    rewrite (group_get (fun t => String.eqb (t_type t) "Expense") t_category
               num_zero (fun t v => num_add v (t_amount t))).
    simpl dict_get. destruct (filter _ l) as [|t rows]; [reflexivity|].
    now rewrite fold_amounts.
Qed.

Lemma fold_person (rows : list (transaction A)) (income expenses : A) :
  fold_left
    (fun stats t =>
       if String.eqb (t_type t) "Income"
       then (num_add (fst stats) (t_amount t), snd stats)
       else (fst stats, num_add (snd stats) (t_amount t)))
    rows (income, expenses)
  = (fold_left num_add
       (map t_amount
          (filter (fun t => String.eqb (t_type t) "Income") rows)) income,
     fold_left num_add
       (map t_amount
          (filter (fun t => negb (String.eqb (t_type t) "Income")) rows))
       expenses).
Proof.
  revert income expenses.
  induction rows as [|t rows IH]; intros income expenses; simpl;
    [reflexivity|].
  destruct (String.eqb (t_type t) "Income"); simpl; apply IH.
Qed.

(** X18: the person breakdown holds each person that has a transaction
    once.  The income of a person sums the rows of type ["Income"]; the
    expenses sum every other row, whatever its type. *)
Theorem person_breakdown (l : list (transaction A)) :
  NoDup (map fst (person_stats l)) /\
  forall person,
    dict_get person (person_stats l)
    = match filter (fun t => String.eqb (t_person t) person) l with
      | [] => None
      | rows =>
          Some (amount_sum
                  (map t_amount
                     (filter (fun t => String.eqb (t_type t) "Income")
                             rows)),
                amount_sum
                  (map t_amount
                     (filter (fun t => negb (String.eqb (t_type t) "Income"))
                             rows)))
      end.
Proof.
  unfold person_stats.
  set (step := fun (t : transaction A) (stats : A * A) =>
                 if String.eqb (t_type t) "Income"
                 then (num_add (fst stats) (t_amount t), snd stats)
                 else (fst stats, num_add (snd stats) (t_amount t))).
  assert (Hfold : forall dict,
            fold_left
              (fun person_stats trans =>
                 if String.eqb (t_type trans) "Income"
                 then dict_update (t_person trans) (num_zero, num_zero)
                        (fun stats =>
                           (num_add (fst stats) (t_amount trans), snd stats))
                        person_stats
                 else dict_update (t_person trans) (num_zero, num_zero)
                        (fun stats =>
                           (fst stats, num_add (snd stats) (t_amount trans)))
                        person_stats) l dict
            = fold_left
                (fun dict t =>
                   dict_update (t_person t) (num_zero, num_zero) (step t)
                     dict) l dict).
  { apply fold_left_same. intros dict t. unfold step.
    now destruct (String.eqb (t_type t) "Income"). }
  rewrite Hfold. split.
  - apply group_all_NoDup. constructor.
  - intros person. rewrite group_all_get. simpl dict_get.
    destruct (filter _ l) as [|t rows]; [reflexivity|].
    unfold step. now rewrite fold_person.
Qed.

Lemma fold_count (rows : list (transaction A)) (count : Z) (total : A) :
  fold_left
    (fun stats t => (fst stats + 1, num_add (snd stats) (t_amount t)))
    rows (count, total)
  = (count + Z.of_nat (List.length rows),
     fold_left num_add (map t_amount rows) total).
Proof.
  revert count total.
  induction rows as [|t rows IH]; intros count total.
  - simpl. f_equal. lia.
  - simpl fold_left. rewrite IH. simpl List.length. f_equal. lia.
Qed.

Lemma count_sum_update (key : string) (amount : A)
    (dict : list (string * (Z * A))) :
  fold_right Z.add 0
    (map (fun item => fst (snd item))
       (dict_update key (0, num_zero)
          (fun stats => (fst stats + 1, num_add (snd stats) amount)) dict))
  = fold_right Z.add 0 (map (fun item => fst (snd item)) dict) + 1.
Proof.
  induction dict as [|[k [c t]] dict IH]; simpl; [reflexivity|].
  destruct (String.eqb k key); simpl; [lia|]. rewrite IH. lia.
Qed.

(** X19: the category report holds each category that has a transaction
    once, with the number of its transactions and the sum of their
    amounts, incomes and expenses alike.  Every count is at least one, so
    the average that follows never divides by zero, and the counts add up
    to the number of transactions. *)
Theorem category_report_counts (l : list (transaction A)) :
  NoDup (map fst (category_stats l)) /\
  (forall cat,
     dict_get cat (category_stats l)
     = match filter (fun t => String.eqb (t_category t) cat) l with
       | [] => None
       | rows =>
           Some (Z.of_nat (List.length rows),
                 amount_sum (map t_amount rows))
       end) /\
  (forall cat stats, In (cat, stats) (category_stats l) -> 1 <= fst stats) /\
  fold_right Z.add 0 (map (fun item => fst (snd item)) (category_stats l))
  = Z.of_nat (List.length l).
Proof.
  unfold category_stats.
  set (step := fun (t : transaction A) (stats : Z * A) =>
                 (fst stats + 1, num_add (snd stats) (t_amount t))).
  change (fun (categories : list (string * (Z * A))) trans =>
            dict_update (t_category trans) (0, num_zero)
              (fun stats =>
                 (fst stats + 1, num_add (snd stats) (t_amount trans)))
              categories)
    with (fun (categories : list (string * (Z * A))) trans =>
            dict_update (t_category trans) (0, num_zero) (step trans)
              categories).
  assert (Hnd : NoDup
                  (map fst
                     (fold_left
                        (fun dict t =>
                           dict_update (t_category t) (0, num_zero) (step t)
                             dict) l []))).
  { apply group_all_NoDup. constructor. }
  assert (Hget : forall cat,
            dict_get cat
              (fold_left
                 (fun dict t =>
                    dict_update (t_category t) (0, num_zero) (step t) dict)
                 l [])
            = match filter (fun t => String.eqb (t_category t) cat) l with
              | [] => None
              | rows =>
                  Some (Z.of_nat (List.length rows),
                        amount_sum (map t_amount rows))
              end).
  { intros cat. rewrite group_all_get. simpl dict_get.
    destruct (filter _ l) as [|t rows]; [reflexivity|].
    unfold step. now rewrite fold_count. }
  split; [|split; [|split]].
  - exact Hnd.
  - exact Hget.
  - intros cat stats Hin.
    apply (dict_get_In _ _ _ Hnd) in Hin. rewrite Hget in Hin.
    destruct (filter _ l) as [|t rows]; [discriminate|].
    injection Hin as <-. simpl. lia.
  - clear Hnd Hget.
    assert (Hgen : forall dict,
              fold_right Z.add 0
                (map (fun item => fst (snd item))
                   (fold_left
                      (fun categories trans =>
                         dict_update (t_category trans) (0, num_zero)
                           (step trans) categories) l dict))
              = fold_right Z.add 0 (map (fun item => fst (snd item)) dict)
                + Z.of_nat (List.length l)).
    { induction l as [|t l IH]; intros dict.
      - simpl. lia.
      - simpl fold_left. rewrite IH. unfold step.
        rewrite count_sum_update. simpl List.length. lia. }
    rewrite Hgen. reflexivity.
Qed.
End Breakdowns.


(** ** The list of the largest categories *)

Section TopCategories.
Context {A : Type} `{Number A} `{Ordered A}.

(** The comparison of amounts is a strict order in which "not less" is
    transitive, as on integers and on the floats that are numbers. *)
Hypothesis ltb_asym :
  forall a b : A, num_ltb a b = true -> num_ltb b a = false.
Hypothesis ltb_between :
  forall a b c : A,
    num_ltb a b = false -> num_ltb b c = false -> num_ltb a c = false.

Lemma StronglySorted_split {X : Type} (R : X -> X -> Prop) (n : nat)
    (l : list X) :
  Sorted.StronglySorted R l ->
  Sorted.StronglySorted R (firstn n l) /\
  forall x y, In x (firstn n l) -> In y (skipn n l) -> R x y.
Proof.
  revert l. induction n as [|n IH]; intros l Hs.
  - simpl. split; [constructor|intros x y []].
  - destruct l as [|a l]; simpl.
    + split; [constructor|intros x y []].
    + inversion Hs as [|? ? Hs' Ha]; subst.
      destruct (IH l Hs') as [Hf Hxy]. rewrite Forall_forall in Ha. split.
      * constructor; [exact Hf|]. apply Forall_forall. intros x Hx.
        apply Ha. rewrite <- (firstn_skipn n l). apply in_or_app. now left.
      * intros x y [<-|Hx] Hy.
        -- apply Ha. rewrite <- (firstn_skipn n l). apply in_or_app.
           now right.
        -- now apply Hxy.
Qed.

End TopCategories.

(** ** The recent activity *)

Lemma length_append (s1 s2 : string) :
  String.length (s1 ++ s2) = (String.length s1 + String.length s2)%nat.
Proof.
  induction s1 as [|c s1 IH]; simpl; [reflexivity|]. now rewrite IH.
Qed.

Lemma length_substring (n : nat) (s : string) :
  String.length (substring 0 n s) = Nat.min n (String.length s).
Proof.
  revert s. induction n as [|n IH]; intros s.
  - now destruct s.
  - destruct s as [|c s]; simpl; [reflexivity|]. now rewrite IH.
Qed.

(** X21: a description of at most twenty characters is shown as it is;
    a longer one is shown as its first twenty characters and three dots,
    which is twenty-three characters, more than the description has when
    it has twenty-one or twenty-two. *)
Theorem short_description_length (description : string) :
  String.length (short_description description)
  = (if 20 <? Z.of_nat (String.length description)
     then 23%nat else String.length description) /\
  (String.length (short_description description) <= 23)%nat /\
  substring 0 20 (short_description description)
  = substring 0 20 description.
Proof.
  unfold short_description.
  destruct (Z.ltb_spec 20 (Z.of_nat (String.length description))) as [Hl|Hl].
  - rewrite length_append, length_substring.
    replace (Nat.min 20 (String.length description)) with 20%nat by lia.
    split; [reflexivity|]. split; [simpl; lia|].
    assert (Hp : prefix (substring 0 20 description)
                   (substring 0 20 description ++ "...") = true).
    { generalize (substring 0 20 description) as s.
      induction s as [|c s IH]; simpl; [reflexivity|].
      now destruct (ascii_dec c c) as [_|[]]. }
    apply prefix_correct in Hp. rewrite length_substring in Hp.
    now replace (Nat.min 20 (String.length description)) with 20%nat in Hp
      by lia.
  - split; [reflexivity|]. split; [lia|reflexivity].
Qed.

Section Recent.
Context {A : Type} `{Number A}.

Lemma where_clause_none (t : transaction A) : where_clause None t = true.
Proof. reflexivity. Qed.

(** X22: the recent activity shows five transactions, or all when there
    are fewer: the first five of the full listing, so that no transaction
    left out is newer than one that is shown. *)
Theorem recent_activity_newest (d : db A) :
  exists shown rest,
    Permutation (shown ++ rest) (transactions d) /\
    recent_activity d
    = map (fun t => (t_date t, short_description (t_description t),
                     t_amount t)) shown /\
    List.length (recent_activity d)
    = Nat.min 5 (List.length (transactions d)) /\
    Sorted.StronglySorted date_desc_id_desc shown /\
    forall t u, In t shown -> In u rest -> date_desc_id_desc t u.
Proof.
  exists (firstn 5 (get_transactions None d)),
         (skipn 5 (get_transactions None d)).
  assert (Hall : filter (where_clause None) (transactions d)
                 = transactions d).
  { induction (transactions d) as [|t l IH]; simpl; [reflexivity|].
    now rewrite IH. }
  assert (Hs : Sorted.StronglySorted date_desc_id_desc
                 (get_transactions None d)).
  { apply sort_sorted.
    - apply order_by_yes.
    - apply order_by_no.
    - apply date_desc_id_desc_trans. }
  destruct (StronglySorted_split _ 5 _ Hs) as [Hf Hxy].
  split; [|split; [|split; [|split]]].
  - rewrite firstn_skipn. unfold get_transactions. rewrite Hall.
    apply sort_perm.
  - reflexivity.
  - unfold recent_activity. rewrite length_map, length_firstn.
    unfold get_transactions. now rewrite sort_length, Hall.
  - exact Hf.
  - exact Hxy.
Qed.
End Recent.

(** ** The start of the program *)

Section Startup.
Context {A : Type} `{Number A}.
Variable today : date.

Lemma is_due_advance (rec : recurring A) :
  is_due today (advance_rule today rec) = true -> is_due today rec = true.
Proof.
  unfold advance_rule, is_due.
  destruct (rule_outcome today rec) as [[next_due|]|e] eqn:E;
    try (now rewrite E); reflexivity.
Qed.

Lemma filter_map_length {X : Type} (p : X -> bool) (f : X -> X)
    (l : list X) :
  (forall x, p (f x) = true -> p x = true) ->
  (List.length (filter p (map f l)) <= List.length (filter p l))%nat.
Proof.
  intros Hp. induction l as [|x l IH]; simpl; [lia|].
  destruct (p (f x)) eqn:E.
  - rewrite (Hp _ E). simpl. lia.
  - destruct (p x); simpl; lia.
Qed.

(** X23: at its start the program goes through the recurring rules twice.
    The message counts the rows of the second pass only, and is left out
    when that pass wrote none; the rows of the first pass, which are at
    least as many, are written without a message. *)
Theorem startup_message (now1 now2 : string) (d d' : db A)
    (message : option Z) :
  NoDup (map r_id (recurring_transactions d)) ->
  main today now1 now2 d = (d', Ok message) ->
  let first :=
    Z.of_nat (List.length
                (filter (is_due today) (get_recurring_transactions d))) in
  let second :=
    Z.of_nat (List.length
                (filter (is_due today)
                   (map (advance_rule today)
                      (get_recurring_transactions d)))) in
  message = (if 0 <? second then Some second else None) /\
  second <= first /\
  Z.of_nat (List.length (transactions d'))
  = Z.of_nat (List.length (transactions d)) + first + second.
Proof.
  intros Hnd Hmain first second. unfold main in Hmain.
  destruct (process_recurring_transactions today now1 d) as [d1 [n1|e]] eqn:E1;
    [|discriminate].
  destruct (update_chart None None d1) as [points|e]; [|discriminate].
  destruct (process_recurring_transactions today now2 d1) as [d2 [n2|e]] eqn:E2;
    [|discriminate].
  injection Hmain as <- <-.
  pose proof (process_advances_rules _ _ _ _ _ Hnd E1) as Hrules.
  unfold process_recurring_transactions in E1, E2.
  pose proof (process_loop_length _ _ _ _ _ _ _ E1) as Hl1.
  pose proof (process_loop_length _ _ _ _ _ _ _ E2) as Hl2.
  apply process_loop_count in E1 as [_ Hn1].
  apply process_loop_count in E2 as [_ Hn2].
  rewrite Hrules in Hn2. fold first in Hn1. fold second in Hn2.
  simpl in Hn1, Hn2. subst n1 n2. split; [reflexivity|]. split; [|lia].
  unfold first, second. apply Nat2Z.inj_le, filter_map_length.
  apply is_due_advance.
Qed.
End Startup.


Lemma startup_message_witness :
  let d := Sample.news_only in
  let started :=
    main (mkdate 2024 1 20) "2024-01-20 08:00:00" "2024-01-20 08:00:01" d in
  snd started = Ok (Some 1) /\
  Z.of_nat (List.length (transactions (fst started))) = 2.
Proof.
  intros d started.
  destruct (startup_message (mkdate 2024 1 20) "2024-01-20 08:00:00"
              "2024-01-20 08:00:01" d (fst started) (Some 1))
    as (_ & _ & Hrows).
  - repeat constructor. simpl. tauto.
  - reflexivity.
  - split; [reflexivity|exact Hrows].
Defined.
